(** * Three-phase commit over SQLite replicas: model and verification

    Shallow embedding of [three_phase_commit.py]: the [Transaction] record,
    the [Participant] state machine with its four phase methods, and the
    [Coordinator] that drives them over its roster.

    Python objects are mutable and shared.  Participant methods are written
    in a small state monad whose outcome type distinguishes a normal return,
    a propagating exception (the mutations done so far persist) and a thread
    that waits forever on a [threading.Lock] it already holds.  The
    coordinator works on a heap of participant and transaction objects
    addressed by reference, so a participant registered twice is one object
    and all participants write the state of the one transaction.

    SQLite is outside the program.  Its behaviour enters in two ways: the
    meaning of the SQL statements is a parameter ([BackingStore]), and each
    method call is given the set of library calls that raise during it
    ([Faults]).  Every theorem quantifies over both.  Each participant owns
    the database file at its [db_path]; calls to [self.logger] are left out. *)

From Stdlib Require Import ZArith Ascii String List Bool Lia.
From stdpp Require Import base option list strings gmap.

(** ** Enumerations *)

(** [class TransactionState(enum.Enum)] *)
Inductive TransactionState : Set := INIT | CAN_COMMIT | PRE_COMMIT | COMMIT | ABORT.

(** [class Vote(enum.Enum)] *)
Inductive Vote : Set := YES | NO | ACK.

#[global] Instance TransactionState_eq_dec : EqDecision TransactionState.
Proof. solve_decision. Defined.

#[global] Instance Vote_eq_dec : EqDecision Vote.
Proof. solve_decision. Defined.

(** ** [str.strip()]

    A Python [str] is a sequence of code points; the model keeps the code
    points below 256, one per [ascii].  [str.strip()] without argument
    removes leading and trailing characters for which [str.isspace()] holds:
    below 256 these are 0x09-0x0D, 0x1C-0x1F, 0x20, 0x85 and 0xA0. *)
Definition isspace (c : ascii) : bool :=
  let n := nat_of_ascii c in
  (((9 <=? n) && (n <=? 13)) || ((28 <=? n) && (n <=? 32))
   || (n =? 133) || (n =? 160))%nat.

Fixpoint lstrip (s : list ascii) : list ascii :=
  match s with
  | [] => []
  | c :: s' => if isspace c then lstrip s' else s
  end.

Definition rstrip (s : list ascii) : list ascii := rev (lstrip (rev s)).

Definition strip (s : string) : string :=
  string_of_list_ascii (rstrip (lstrip (list_ascii_of_string s))).

(** Truth value of a [str]: the empty string is false. *)
Definition truthy (s : string) : bool :=
  match s with EmptyString => false | String _ _ => true end.

(** ** Transactions *)

(** [@dataclass class Transaction].  [timestamp] is a float that the engine
    only copies into log rows; it is kept as an opaque number. *)
Module Transaction.
Record t : Type := mk {
  transaction_id : string;
  sql_queries : list string;
  state : TransactionState;
  timestamp : Z
}.

Definition set_state (s : TransactionState) (tx : t) : t :=
  {| transaction_id := transaction_id tx;
     sql_queries := sql_queries tx;
     state := s;
     timestamp := timestamp tx |}.
End Transaction.

Abbreviation Transaction := Transaction.t.

(** ** Outcomes and the method monad *)

(** What a call can do: return, let an exception propagate, or never come
    back.  The state reached when an exception leaves a block is kept, since
    Python does not undo assignments. *)
Inductive Res (S A : Type) : Type :=
| Returned (a : A) (s : S)
| Raised (s : S)
| Blocked.

Arguments Returned {S A} a s.
Arguments Raised {S A} s.
Arguments Blocked {S A}.

Definition M (S A : Type) : Type := S -> Res S A.

Definition ret {S A} (a : A) : M S A := fun s => Returned a s.

Definition bind {S A B} (m : M S A) (k : A -> M S B) : M S B :=
  fun s =>
    match m s with
    | Returned a s' => k a s'
    | Raised s' => Raised s'
    | Blocked => Blocked
    end.

(** [raise SomeException] *)
Definition raise {S A} : M S A := fun s => Raised s.

(** [try: body / except Exception: handler] *)
Definition try_except {S A} (body handler : M S A) : M S A :=
  fun s =>
    match body s with
    | Returned a s' => Returned a s'
    | Raised s' => handler s'
    | Blocked => Blocked
    end.

(** [try: body / finally: cleanup] *)
Definition try_finally {S A} (body : M S A) (cleanup : M S unit) : M S A :=
  fun s =>
    match body s with
    | Returned a s' =>
        match cleanup s' with
        | Returned _ s'' => Returned a s''
        | Raised s'' => Raised s''
        | Blocked => Blocked
        end
    | Raised s' =>
        match cleanup s' with
        | Returned _ s'' => Raised s''
        | Raised s'' => Raised s''
        | Blocked => Blocked
        end
    | Blocked => Blocked
    end.

Definition gets {S A} (f : S -> A) : M S A := fun s => Returned (f s) s.

Definition modify {S} (f : S -> S) : M S unit := fun s => Returned tt (f s).

Declare Scope py_scope.
Delimit Scope py_scope with py.

Notation "'let*' x ':=' c1 'in' c2" := (bind c1 (fun x => c2))
  (at level 10, x name, c1 at level 100, c2 at level 200) : py_scope.

Local Open Scope py_scope.

(** ** The backing store

    The engine reaches SQLite through [sqlite3.connect], [cursor.execute],
    [commit], [rollback] and [close].  The content of the user tables and
    the meaning of a statement are parameters: [execute q d] is the content
    after [cursor.execute(q)] on content [d], or [None] when the statement
    raises.  Statements of a transaction act on the user tables; the
    [transaction_log] table is written by [_log_transaction] alone. *)
Class BackingStore : Type := {
  Data : Type;
  execute : string -> Data -> option Data
}.

(** I/O faults of one method call (lock timeouts, unreachable or full disk):
    which of the library calls made by the method raise.  *)
Record Faults : Set := {
  connect_fails : bool;   (* sqlite3.connect(...) in the method body *)
  begin_fails : bool;     (* cursor.execute("BEGIN IMMEDIATE") *)
  commit_fails : bool;    (* _pending_connection.commit() *)
  rollback_fails : bool;  (* _pending_connection.rollback() *)
  close_fails : bool;     (* conn.close() / _pending_connection.close() *)
  log_fails : bool        (* any call inside _log_transaction *)
}.

Definition no_faults : Faults :=
  {| connect_fails := false; begin_fails := false; commit_fails := false;
     rollback_fails := false; close_fails := false; log_fails := false |}.

(** A row of the [transaction_log] table, keyed by [transaction_id]:
    [state.value], [timestamp], [json.dumps(sql_queries)]. *)
Record LogRow : Set := {
  row_state : TransactionState;
  row_timestamp : Z;
  row_queries : list string
}.

Definition log_row (tx : Transaction) : LogRow :=
  {| row_state := Transaction.state tx;
     row_timestamp := Transaction.timestamp tx;
     row_queries := Transaction.sql_queries tx |}.

(** [for query in transaction.sql_queries: if not query.strip(): ...] :
    is there a statement that is empty once stripped. *)
Fixpoint has_blank_query (qs : list string) : bool :=
  match qs with
  | [] => false
  | q :: qs' => if negb (truthy (strip q)) then true else has_blank_query qs'
  end.

Section Engine.
Context `{BackingStore}.

(** The SQLite file at [db_path]: committed user tables and the log table. *)
Record Database : Type := {
  tables : Data;
  transaction_log : gmap string LogRow
}.

(** [class Participant].  [_pending_connection] is an attribute that is
    set and deleted dynamically: [None] when [hasattr] is false, otherwise
    the connection with its open write transaction, whose uncommitted view
    of the tables it holds.  [lock] tells whether [self.lock] is held.
    The in-memory dictionary [self.transaction_log] is never read or
    written by any method and is left out. *)
Record Participant : Type := {
  participant_id : string;
  db_path : string;
  state : TransactionState;
  lock : bool;
  _pending_connection : option Data;
  database : Database
}.

(** The objects a participant method works on: [self] and the
    [transaction] argument, both mutated in place. *)
Record PWorld : Type := { self : Participant; transaction : Transaction }.

Definition set_state (s : TransactionState) (w : PWorld) : PWorld :=
  let p := self w in
  {| self := {| participant_id := participant_id p; db_path := db_path p;
                state := s; lock := lock p;
                _pending_connection := _pending_connection p;
                database := database p |};
     transaction := transaction w |}.

Definition set_lock (b : bool) (w : PWorld) : PWorld :=
  let p := self w in
  {| self := {| participant_id := participant_id p; db_path := db_path p;
                state := state p; lock := b;
                _pending_connection := _pending_connection p;
                database := database p |};
     transaction := transaction w |}.

Definition set_pending (c : option Data) (w : PWorld) : PWorld :=
  let p := self w in
  {| self := {| participant_id := participant_id p; db_path := db_path p;
                state := state p; lock := lock p;
                _pending_connection := c;
                database := database p |};
     transaction := transaction w |}.

Definition set_database (d : Database) (w : PWorld) : PWorld :=
  let p := self w in
  {| self := {| participant_id := participant_id p; db_path := db_path p;
                state := state p; lock := lock p;
                _pending_connection := _pending_connection p;
                database := d |};
     transaction := transaction w |}.

Definition set_transaction_state (s : TransactionState) (w : PWorld) : PWorld :=
  {| self := self w; transaction := Transaction.set_state s (transaction w) |}.

(** [with self.lock: body].  [threading.Lock] is not reentrant: acquiring
    it while it is held waits forever.  The lock is released when the
    block is left, by return or by exception. *)
Definition with_lock {A} (body : M PWorld A) : M PWorld A :=
  fun w =>
    if lock (self w) then Blocked
    else match body (set_lock true w) with
         | Returned a w' => Returned a (set_lock false w')
         | Raised w' => Raised (set_lock false w')
         | Blocked => Blocked
         end.

(** *** Library calls *)

(** [sqlite3.connect(self.db_path, timeout=10.0)]: the new connection sees
    the committed tables. *)
Definition sqlite3_connect (f : Faults) : M PWorld Data :=
  if connect_fails f then raise
  else gets (fun w => tables (database (self w))).

(** [cursor.execute("BEGIN IMMEDIATE")] *)
Definition begin_immediate (f : Faults) : M PWorld unit :=
  if begin_fails f then raise else ret tt.

(** [for query in transaction.sql_queries: cursor.execute(query)] on the
    connection's uncommitted view; the first failing statement raises. *)
Fixpoint execute_queries (qs : list string) (conn : Data) : M PWorld Data :=
  match qs with
  | [] => ret conn
  | q :: qs' =>
      match execute q conn with
      | Some conn' => execute_queries qs' conn'
      | None => raise
      end
  end.

(** The content reached by the statements in order, when none raises. *)
Fixpoint execute_all (qs : list string) (d : Data) : option Data :=
  match qs with
  | [] => Some d
  | q :: qs' =>
      match execute q d with
      | Some d' => execute_all qs' d'
      | None => None
      end
  end.

(** [conn.commit()]: the connection's view becomes the committed tables. *)
Definition conn_commit (f : Faults) (conn : Data) : M PWorld unit :=
  if commit_fails f then raise
  else modify (fun w =>
         set_database {| tables := conn;
                         transaction_log :=
                           transaction_log (database (self w)) |} w).

(** [conn.rollback()]: the uncommitted view is dropped. *)
Definition conn_rollback (f : Faults) : M PWorld unit :=
  if rollback_fails f then raise else ret tt.

(** [conn.close()] *)
Definition conn_close (f : Faults) : M PWorld unit :=
  if close_fails f then raise else ret tt.

(** *** [Participant._log_transaction]

    [INSERT OR REPLACE INTO transaction_log ...] on a separate connection,
    inside [try ... except Exception], which only reports the error. *)
Definition insert_or_replace (w : PWorld) : PWorld :=
  let tx := transaction w in
  let d := database (self w) in
  set_database
    {| tables := tables d;
       transaction_log :=
         <[Transaction.transaction_id tx := log_row tx]> (transaction_log d) |}
    w.

Definition _log_transaction (f : Faults) : M PWorld unit :=
  try_except
    (if log_fails f then raise else modify insert_or_replace)
    (ret tt).

(** The effect of a call to [_log_transaction]: the row is written unless
    the write fails; the caller sees no error either way. *)
Definition logged (f : Faults) (w : PWorld) : PWorld :=
  if log_fails f then w else insert_or_replace w.

(** *** [Participant.can_commit] *)
Definition can_commit (f : Faults) : M PWorld Vote :=
  with_lock
    (try_except
       (let* _ := sqlite3_connect f in
        let* qs := gets (fun w => Transaction.sql_queries (transaction w)) in
        if has_blank_query qs then
          let* _ := conn_close f in
          ret NO
        else
          let* _ := conn_close f in
          let* _ := modify (set_state CAN_COMMIT) in
          let* _ := modify (set_transaction_state CAN_COMMIT) in
          let* _ := _log_transaction f in
          ret YES)
       (let* _ := modify (set_state ABORT) in
        ret NO)).

(** *** [Participant.pre_commit]

    In the handler, ['conn' in locals()] holds when [sqlite3.connect]
    returned.  [conn.rollback(); conn.close()] then act on the local
    connection, whose uncommitted view is lost with it, and their own
    errors are swallowed by the bare [except: pass]. *)
Definition pre_commit (f : Faults) : M PWorld Vote :=
  with_lock
    (try_except
       (let* st := gets (fun w => state (self w)) in
        if decide (st <> CAN_COMMIT) then ret NO
        else
          let* conn := sqlite3_connect f in
          let* _ := begin_immediate f in
          let* qs := gets (fun w => Transaction.sql_queries (transaction w)) in
          let* conn := execute_queries qs conn in
          let* _ := modify (set_pending (Some conn)) in
          let* _ := modify (set_state PRE_COMMIT) in
          let* _ := modify (set_transaction_state PRE_COMMIT) in
          ret ACK)
       (let* _ :=
          if connect_fails f then ret tt
          else try_except
                 (let* _ := conn_rollback f in conn_close f)
                 (ret tt) in
        let* _ := modify (set_state ABORT) in
        ret NO)).

(** *** [Participant.abort] *)
Definition abort (f : Faults) : M PWorld unit :=
  with_lock
    (try_except
       (let* pending := gets (fun w => _pending_connection (self w)) in
        let* _ :=
          match pending with
          | Some _ =>
              try_finally
                (try_except
                   (let* _ := conn_rollback f in conn_close f)
                   (ret tt))
                (modify (set_pending None))
          | None => ret tt
          end in
        let* _ := modify (set_state ABORT) in
        let* _ := modify (set_transaction_state ABORT) in
        _log_transaction f)
       (ret tt)).

(** *** [Participant.do_commit]

    The handler calls [self.abort(transaction)] while [do_commit] still
    holds [self.lock]. *)
Definition do_commit (f : Faults) : M PWorld unit :=
  with_lock
    (try_except
       (let* st := gets (fun w => state (self w)) in
        if decide (st <> PRE_COMMIT) then ret tt
        else
          let* pending := gets (fun w => _pending_connection (self w)) in
          let* _ :=
            match pending with
            | Some conn =>
                let* _ := conn_commit f conn in
                let* _ := conn_close f in
                modify (set_pending None)
            | None => ret tt
            end in
          let* _ := modify (set_state COMMIT) in
          let* _ := modify (set_transaction_state COMMIT) in
          _log_transaction f)
       (abort f)).

End Engine.

(** ** The object heap and the coordinator *)

Section Coordination.
Context `{BackingStore}.

(** Participants and transactions are objects held by reference: the same
    [Participant] may be registered twice, and every participant mutates
    the one [Transaction] it is handed. *)
Record World : Type := {
  participant_at : nat -> Participant;
  transaction_at : nat -> Transaction
}.

Definition update {A} (i : nat) (x : A) (h : nat -> A) : nat -> A :=
  fun j => if Nat.eqb j i then x else h j.

Definition store (r t : nat) (pw : PWorld) (w : World) : World :=
  {| participant_at := update r (self pw) (participant_at w);
     transaction_at := update t (transaction pw) (transaction_at w) |}.

(** [participant.method(transaction)] for the objects at references [r]
    and [t]. *)
Definition call {A} (r t : nat) (method : M PWorld A) : M World A :=
  fun w =>
    match method {| self := participant_at w r;
                    transaction := transaction_at w t |} with
    | Returned a pw => Returned a (store r t pw w)
    | Raised pw => Raised (store r t pw w)
    | Blocked => Blocked
    end.

(** [class Coordinator]: [participants] is the roster, a list of
    references. *)
Record Coordinator : Set := {
  coordinator_id : string;
  participants : list nat
}.

(** [Coordinator.add_participant]: [self.participants.append(participant)]. *)
Definition add_participant (c : Coordinator) (participant : nat) : Coordinator :=
  {| coordinator_id := coordinator_id c;
     participants := participants c ++ [participant] |}.

(** The faults met during one run, by method and by position in the
    roster. *)
Record Oracle : Set := {
  at_can_commit : nat -> Faults;
  at_pre_commit : nat -> Faults;
  at_do_commit : nat -> Faults;
  at_abort : nat -> Faults
}.

(** [for participant in self.participants: x = participant.method(transaction);
    xs.append(x)], the participant at position [i] meeting faults [fs i]. *)
Fixpoint for_each {A} (method : Faults -> M PWorld A) (fs : nat -> Faults)
    (t : nat) (i : nat) (roster : list nat) : M World (list A) :=
  match roster with
  | [] => ret []
  | r :: roster' =>
      let* x := call r t (method (fs i)) in
      let* xs := for_each method fs t (S i) roster' in
      ret (x :: xs)
  end.

(** [Coordinator._abort_all] *)
Definition _abort_all (c : Coordinator) (o : Oracle) (t : nat) : M World unit :=
  let* _ := for_each (fun f => try_except (abort f) (ret tt))
              (at_abort o) t 0 (participants c) in
  ret tt.

(** [Coordinator.execute_transaction] *)
Definition execute_transaction (c : Coordinator) (o : Oracle) (t : nat) : M World bool :=
  try_except
    (let* votes := for_each can_commit (at_can_commit o) t 0 (participants c) in
     if bool_decide (NO ∈ votes) then
       let* _ := _abort_all c o t in
       ret false
     else
       let* acks := for_each pre_commit (at_pre_commit o) t 0 (participants c) in
       if bool_decide (ACK ∉ acks) || bool_decide (NO ∈ acks) then
         let* _ := _abort_all c o t in
         ret false
       else
         let* _ := for_each do_commit (at_do_commit o) t 0 (participants c) in
         ret true)
    (let* _ := _abort_all c o t in
     ret false).

(** ** Sequences of participant calls *)

Inductive Method : Set := CanCommit | PreCommit | DoCommit | Abort.

(** One call [participant.method(transaction)] with the faults it meets. *)
Record Call : Set := {
  target : nat;        (* reference of the participant *)
  subject : nat;       (* reference of the transaction *)
  method : Method;
  faults : Faults
}.

(** The vote returned, for the two methods that return one. *)
Definition invoke (c : Call) : M World (option Vote) :=
  call (target c) (subject c)
    match method c with
    | CanCommit => let* v := can_commit (faults c) in ret (Some v)
    | PreCommit => let* v := pre_commit (faults c) in ret (Some v)
    | DoCommit => let* _ := do_commit (faults c) in ret None
    | Abort => let* _ := abort (faults c) in ret None
    end.

(** What was observed after each call of a sequence: the call, the vote
    it returned and the heap it left.  A call that does not return ends
    the sequence. *)
Fixpoint history (cs : list Call) (w : World) : list (Call * option Vote * World) :=
  match cs with
  | [] => []
  | c :: cs' =>
      match invoke c w with
      | Returned v w' => (c, v, w') :: history cs' w'
      | _ => []
      end
  end.

End Coordination.

(** ** A concrete store and concrete runs

    A journal store: its content is the list of the statements committed so
    far, and a statement against the table [missing] raises.  It is used to
    run the model on the scenarios of the demo driver. *)
Definition journal_execute (q : string) (d : list string) : option (list string) :=
  if String.eqb q "UPDATE missing SET solde = 0" then None else Some (d ++ [q]).

#[global] Instance journal_store : BackingStore :=
  {| Data := list string; execute := journal_execute |}.

Definition debit_alice : string := "UPDATE comptes SET solde = solde - 200.0 WHERE id = 1".
Definition credit_bob : string := "UPDATE comptes SET solde = solde + 200.0 WHERE id = 2".

(** The transfer of the demo driver, and its invalid sibling whose second
    statement is empty. *)
Definition transfer : Transaction :=
  Transaction.mk "tx-transfer" [debit_alice; credit_bob] INIT 0.

Definition invalid_transfer : Transaction :=
  Transaction.mk "tx-invalid" [debit_alice; ""] INIT 0.

Definition other_transfer : Transaction :=
  Transaction.mk "tx-other" [credit_bob] INIT 0.

(** A participant as [Participant.__init__] leaves it. *)
Definition fresh (name path : string) : Participant :=
  {| participant_id := name; db_path := path; state := INIT; lock := false;
     _pending_connection := None;
     database := {| tables := []; transaction_log := ∅ |} |}.

Definition replica (i : nat) : Participant :=
  match i with
  | 0 => fresh "replica-1" "banque_replica_1.db"
  | 1 => fresh "replica-2" "banque_replica_2.db"
  | _ => fresh "replica-3" "banque_replica_3.db"
  end.

(** Three replicas at references 0, 1, 2 and the transactions at references
    0 (valid), 1 (invalid) and 2 (another valid one). *)
Definition bank : World :=
  {| participant_at := replica;
     transaction_at := fun t =>
       match t with 0 => transfer | 1 => invalid_transfer | _ => other_transfer end |}.

Definition coordinateur : Coordinator :=
  add_participant
    (add_participant
       (add_participant {| coordinator_id := "coordinateur-banque"; participants := [] |} 0)
       1)
    2.

Definition calm : Oracle :=
  {| at_can_commit := fun _ => no_faults; at_pre_commit := fun _ => no_faults;
     at_do_commit := fun _ => no_faults; at_abort := fun _ => no_faults |}.

(** A replica that acknowledged [pre_commit] for the transfer and holds the
    open write. *)
Definition prepared_replica : Participant :=
  {| participant_id := "replica-1"; db_path := "banque_replica_1.db";
     state := PRE_COMMIT; lock := false;
     _pending_connection := Some [debit_alice; credit_bob];
     database := {| tables := []; transaction_log := ∅ |} |}.

(** A replica that went through [abort]. *)
Definition aborted_replica : Participant :=
  {| participant_id := "replica-1"; db_path := "banque_replica_1.db";
     state := ABORT; lock := false;
     _pending_connection := None;
     database := {| tables := []; transaction_log := ∅ |} |}.

Definition commit_fault : Faults :=
  {| connect_fails := false; begin_fails := false; commit_fails := true;
     rollback_fails := false; close_fails := false; log_fails := false |}.

(** The log write that times out while a write transaction is open. *)
Definition log_fault : Faults :=
  {| connect_fails := false; begin_fails := false; commit_fails := false;
     rollback_fails := false; close_fails := false; log_fails := true |}.

(** ** Properties named by the specification *)

(** A pending write handle is present only in local state [PRE_COMMIT]. *)
Definition pending_only_in_pre_commit `{BackingStore} (p : Participant) : Prop :=
  _pending_connection p <> None -> state p = PRE_COMMIT.

(** A method keeps a property of the participant whenever it returns. *)
Definition preserves `{BackingStore} {A} (P : Participant -> Prop)
    (method : M PWorld A) : Prop :=
  forall w a w', P (self w) -> method w = Returned a w' -> P (self w').

(** What [can_commit], [pre_commit] and [abort] leave alone: the committed
    tables and, once they return, the lock; and what no method writes: the
    statements and the identifier of the transaction. *)
Definition same_lock_and_tables `{BackingStore} (p p' : Participant) : Prop :=
  lock p' = lock p /\ tables (database p') = tables (database p).

Definition same_statements (x y : Transaction) : Prop :=
  Transaction.sql_queries y = Transaction.sql_queries x
  /\ Transaction.transaction_id y = Transaction.transaction_id x.

(** Phase 1 and phase 2 of a run from heap [w]: every participant of the
    roster answered YES, then every one answered ACK. *)
Definition unanimous `{BackingStore} (c : Coordinator) (o : Oracle) (t : nat)
    (w : World) : Prop :=
  exists votes w1 acks w2,
    for_each can_commit (at_can_commit o) t 0 (participants c) w = Returned votes w1
    /\ Forall (eq YES) votes
    /\ for_each pre_commit (at_pre_commit o) t 0 (participants c) w1 = Returned acks w2
    /\ Forall (eq ACK) acks.

(** The run returns true, every participant of the roster ends in COMMIT
    with no write pending, and its tables are those reached from the initial
    ones by the statements of the transaction, in order. *)
Definition commits_everywhere `{BackingStore} (c : Coordinator) (o : Oracle)
    (t : nat) (w : World) : Prop :=
  exists w',
    execute_transaction c o t w = Returned true w'
    /\ forall r, r ∈ participants c ->
         state (participant_at w' r) = COMMIT
         /\ _pending_connection (participant_at w' r) = None
         /\ execute_all (Transaction.sql_queries (transaction_at w t))
              (tables (database (participant_at w r)))
            = Some (tables (database (participant_at w' r))).

(** No fault while finalizing: [commit()] and [close()] of the pending
    connection succeed. *)
Definition finalizes (f : Faults) : Prop :=
  commit_fails f = false /\ close_fails f = false.

(** The second replica cannot finalize. *)
Definition finalize_storm : Oracle :=
  {| at_can_commit := fun _ => no_faults; at_pre_commit := fun _ => no_faults;
     at_do_commit := fun i => if Nat.eqb i 1 then commit_fault else no_faults;
     at_abort := fun _ => no_faults |}.

(** Entry [k] of a history is a [pre_commit] of participant [r] on
    transaction [t] that answered ACK. *)
Definition acked_at `{BackingStore} (h : list (Call * option Vote * World))
    (k r t : nat) : Prop :=
  exists c w,
    h !! k = Some (c, Some ACK, w)
    /\ method c = PreCommit /\ target c = r /\ subject c = t.

(** An entry before [k] is a [can_commit] of participant [r] on transaction
    [t] that answered YES. *)
Definition voted_yes_before `{BackingStore} (h : list (Call * option Vote * World))
    (k r t : nat) : Prop :=
  exists j c w,
    j < k /\ h !! j = Some (c, Some YES, w)
    /\ method c = CanCommit /\ target c = r /\ subject c = t.

(** The sequencing property as the specification words it: an ACK for a
    participant and a transaction comes after a YES for the same two. *)
Definition ack_follows_yes_of_same_pair `{BackingStore} (cs : list Call)
    (w : World) : Prop :=
  forall k r t,
    acked_at (history cs w) k r t -> voted_yes_before (history cs w) k r t.

(** [can_commit] for the transfer, then [pre_commit] for another
    transaction, on the first replica. *)
Definition yes_then_other : list Call :=
  [ {| target := 0; subject := 0; method := CanCommit; faults := no_faults |};
    {| target := 0; subject := 2; method := PreCommit; faults := no_faults |} ].






(** The third replica is unreachable in phase 2. *)
Definition begin_fault : Faults :=
  {| connect_fails := false; begin_fails := true; commit_fails := false;
     rollback_fails := false; close_fails := false; log_fails := false |}.

Definition prepare_storm : Oracle :=
  {| at_can_commit := fun _ => no_faults;
     at_pre_commit := fun i => if Nat.eqb i 2 then begin_fault else no_faults;
     at_do_commit := fun _ => no_faults; at_abort := fun _ => no_faults |}.

(** [can_commit] then [pre_commit] for the transfer on the first replica. *)
Definition yes_then_ack : list Call :=
  [ {| target := 0; subject := 0; method := CanCommit; faults := no_faults |};
    {| target := 0; subject := 0; method := PreCommit; faults := no_faults |} ].

Definition nobody : Coordinator :=
  {| coordinator_id := "coordinateur-test"; participants := [] |}.

(** ** Construction *)

(** [Participant._init_database]: opens the file at [db_path], switches it
    to WAL mode and creates the table [transaction_log] if it does not exist;
    the rows of an existing table are kept.  Nothing catches an exception
    raised here. *)
Definition _init_database `{BackingStore} (f : Faults) (file : Database) : option Database :=
  if connect_fails f || commit_fails f || close_fails f then None else Some file.

(** [Participant.__init__], on the content [file] that [sqlite3.connect]
    finds at [db_path] (an empty database when the file is new): [None] when
    [_init_database] raises, so that no object is built. *)
Definition Participant__init__ `{BackingStore} (f : Faults)
    (participant_id db_path : string) (file : Database) : option Participant :=
  match _init_database f file with
  | Some d =>
      Some {| participant_id := participant_id; db_path := db_path;
              state := INIT; lock := false; _pending_connection := None;
              database := d |}
  | None => None
  end.

(** [Coordinator.__init__] *)
Definition Coordinator__init__ (coordinator_id : string) : Coordinator :=
  {| coordinator_id := coordinator_id; participants := [] |}.

(** The row that [_log_transaction] holds for a transaction, if any. *)
Definition logged_row `{BackingStore} (p : Participant) (tx : Transaction) : option LogRow :=
  transaction_log (database p) !! Transaction.transaction_id tx.

(** ** More concrete runs *)



(** The first replica registered twice. *)
Definition twice : Coordinator :=
  add_participant (add_participant (Coordinator__init__ "coordinateur-test") 0) 0.

(** A replica that voted YES for the transfer. *)
Definition voted_replica : Participant :=
  {| participant_id := "replica-1"; db_path := "banque_replica_1.db";
     state := CAN_COMMIT; lock := false; _pending_connection := None;
     database := {| tables := []; transaction_log := ∅ |} |}.

(** A replica that committed the transfer. *)
Definition committed_replica : Participant :=
  {| participant_id := "replica-1"; db_path := "banque_replica_1.db";
     state := COMMIT; lock := false; _pending_connection := None;
     database := {| tables := [debit_alice; credit_bob]; transaction_log := ∅ |} |}.

Definition rollback_fault : Faults :=
  {| connect_fails := false; begin_fails := false; commit_fails := false;
     rollback_fails := true; close_fails := false; log_fails := false |}.

Definition empty_file : Database := {| tables := []; transaction_log := ∅ |}.

(** Up to entry [k] of a history, a [pre_commit] of participant [r] answered
    ACK. *)
Definition acked_upto `{BackingStore} (h : list (Call * option Vote * World))
    (k r : nat) : Prop :=
  exists j c w,
    j <= k /\ h !! j = Some (c, Some ACK, w)
    /\ method c = PreCommit /\ target c = r.

(** The pending write, when there is one, is what some list of statements
    makes of the committed tables as they are now. *)
Definition pending_is_prepared `{BackingStore} (p : Participant) : Prop :=
  forall conn,
    _pending_connection p = Some conn ->
    exists qs, execute_all qs (tables (database p)) = Some conn.

(** [can_commit], [pre_commit], then [do_commit] for the transfer on the
    first replica. *)
Definition full_round : list Call :=
  [ {| target := 0; subject := 0; method := CanCommit; faults := no_faults |};
    {| target := 0; subject := 0; method := PreCommit; faults := no_faults |};
    {| target := 0; subject := 0; method := DoCommit; faults := no_faults |} ].

(** ** The visual simulator ([3pcSimulationVisuel.py])

    The simulator plays three scripted scenarios on a canvas.  Of a node
    widget the model keeps what [set_state] changes, the fill colour of the
    oval and the text of the status label, and its name; positions, fonts,
    the connecting lines and the pauses ([time.sleep]) are left out.  A run
    of [run_logic] is modelled on its own, as the thread started by
    [start_simulation] executes it.  Messages and labels are the bytes of
    the literals in the source file. *)

From stdpp Require Import pretty.

Definition COLOR_DEFAULT : string := "#d9d9d9".
Definition COLOR_WAIT : string := "#f1c40f".
Definition COLOR_PRE : string := "#3498db".
Definition COLOR_COMMIT : string := "#2ecc71".
Definition COLOR_ABORT : string := "#e74c3c".
Definition COLOR_COORD : string := "#9b59b6".

(** [class NodeWidget] *)
Module NodeWidget.
Record t : Set := mk {
  id : string;           (* self.id *)
  fill : string;         (* fill of self.oval *)
  status : string        (* text of self.status_text *)
}.

Definition __init__ (text : string) (is_coord : bool) : t :=
  {| id := text;
     fill := if is_coord then COLOR_COORD else COLOR_DEFAULT;
     status := "IDLE" |}.

Definition set_state (state_text color : string) (n : t) : t :=
  {| id := id n; fill := color; status := state_text |}.
End NodeWidget.

(** [class SimulatorApp]: the coordinator node, the participant nodes and
    the content of the log area. *)
Record SimulatorApp : Set := {
  coord_node : NodeWidget.t;
  nodes : list NodeWidget.t;
  log_area : string
}.

Definition newline : string := String (ascii_of_nat 10) EmptyString.

(** [for i, pos in enumerate(positions): n = NodeWidget(..., f"NODE {i+1}")] *)
Fixpoint make_nodes (i : nat) (positions : list nat) : list NodeWidget.t :=
  match positions with
  | [] => []
  | _ :: positions' =>
      NodeWidget.__init__ ("NODE " +:+ pretty (i + 1)) false
      :: make_nodes (S i) positions'
  end.

(** [SimulatorApp.__init__] *)
Definition SimulatorApp__init__ : SimulatorApp :=
  {| coord_node := NodeWidget.__init__ "COORDINATEUR" true;
     nodes := make_nodes 0 [200; 400; 600];
     log_area := "" |}.

(** [SimulatorApp.log]: the message and a line break are appended. *)
Definition log (message : string) (app : SimulatorApp) : SimulatorApp :=
  {| coord_node := coord_node app; nodes := nodes app;
     log_area := log_area app +:+ message +:+ newline |}.

Definition set_coord (state_text color : string) (app : SimulatorApp) : SimulatorApp :=
  {| coord_node := NodeWidget.set_state state_text color (coord_node app);
     nodes := nodes app; log_area := log_area app |}.

(** [for n in self.nodes: n.set_state(state_text, color)] *)
Definition set_all (state_text color : string) (app : SimulatorApp) : SimulatorApp :=
  {| coord_node := coord_node app;
     nodes := map (NodeWidget.set_state state_text color) (nodes app);
     log_area := log_area app |}.

(** [SimulatorApp.reset_ui] *)
Definition reset_ui (app : SimulatorApp) : SimulatorApp :=
  {| coord_node := NodeWidget.set_state "IDLE" COLOR_COORD (coord_node app);
     nodes := map (NodeWidget.set_state "IDLE" COLOR_DEFAULT) (nodes app);
     log_area := "" |}.

(** The voting loop of [run_logic], from index [i] on: the nodes as it
    leaves them, the log area and the votes collected. *)
Fixpoint vote_loop (scenario : string) (i : nat) (ns : list NodeWidget.t)
    (area : string) : list NodeWidget.t * string * list bool :=
  match ns with
  | [] => ([], area, [])
  | n :: ns' =>
      if String.eqb scenario "FAIL_VOTE" && Nat.eqb i 1 then
        let area' :=
          area +:+ ("   -> Node " +:+ pretty (i + 1)
                    +:+ " a voté NON (Refus transaction)") +:+ newline in
        let '(ns'', area'', votes) := vote_loop scenario (S i) ns' area' in
        (NodeWidget.set_state "VOTE: NO" COLOR_ABORT n :: ns'', area'', false :: votes)
      else
        let '(ns'', area'', votes) := vote_loop scenario (S i) ns' area in
        (NodeWidget.set_state "VOTE: YES" COLOR_PRE n :: ns'', area'', true :: votes)
  end.

(** The acknowledgement loop of [run_logic]. *)
Fixpoint ack_loop (scenario : string) (i : nat) (ns : list NodeWidget.t)
    (area : string) : list NodeWidget.t * string * list bool :=
  match ns with
  | [] => ([], area, [])
  | n :: ns' =>
      if String.eqb scenario "FAIL_PRE" && Nat.eqb i 2 then
        let area' :=
          area +:+ ("   -> Node " +:+ pretty (i + 1)
                    +:+ " ne répond pas (TIMEOUT)") +:+ newline in
        let '(ns'', area'', acks) := ack_loop scenario (S i) ns' area' in
        (NodeWidget.set_state "TIMEOUT / CRASH" "black" n :: ns'', area'', false :: acks)
      else
        let area' :=
          area +:+ ("   -> Node " +:+ pretty (i + 1)
                    +:+ " a confirmé (ACK)") +:+ newline in
        let '(ns'', area'', acks) := ack_loop scenario (S i) ns' area' in
        (NodeWidget.set_state "ACK PRE-COMMIT" COLOR_PRE n :: ns'', area'', true :: acks)
  end.

(** [for i, n in enumerate(self.nodes): if not (scenario == "FAIL_PRE" and
    i == 2): n.set_state("ROLLBACK", COLOR_ABORT)] *)
Fixpoint rollback_loop (scenario : string) (i : nat) (ns : list NodeWidget.t)
    : list NodeWidget.t :=
  match ns with
  | [] => []
  | n :: ns' =>
      (if negb (String.eqb scenario "FAIL_PRE" && Nat.eqb i 2)
       then NodeWidget.set_state "ROLLBACK" COLOR_ABORT n
       else n)
      :: rollback_loop scenario (S i) ns'
  end.

(** The commit loop of [run_logic]. *)
Fixpoint commit_loop (ns : list NodeWidget.t) (area : string)
    : list NodeWidget.t * string :=
  match ns with
  | [] => ([], area)
  | n :: ns' =>
      let area' :=
        area +:+ ("   -> Node " +:+ NodeWidget.id n
                  +:+ " : Transaction Validée") +:+ newline in
      let '(ns'', area'') := commit_loop ns' area' in
      (NodeWidget.set_state "COMMITTED" COLOR_COMMIT n :: ns'', area'')
  end.

(** [all(xs)] *)
Definition all (xs : list bool) : bool := forallb (fun x => x) xs.

(** [SimulatorApp.run_logic] *)
Definition run_logic (scenario : string) (app : SimulatorApp) : SimulatorApp :=
  let app := reset_ui app in
  let app := log ("--- DÉBUT SCÉNARIO : " +:+ scenario +:+ " ---") app in
  (* phase 1 *)
  let app := log " PHASE 1 : CAN_COMMIT? (Vote demandé)" app in
  let app := set_coord "WAITING VOTES" COLOR_WAIT app in
  let app := set_all "VOTING..." COLOR_WAIT app in
  let '(ns, area, votes) := vote_loop scenario 0 (nodes app) (log_area app) in
  let app := {| coord_node := coord_node app; nodes := ns; log_area := area |} in
  if negb (all votes) then
    let app := log " DÉCISION : ABORT GLOBAL (Un vote négatif)" app in
    let app := set_coord "SENDING ABORT" COLOR_ABORT app in
    set_all "ABORTED" COLOR_ABORT app
  else
    (* phase 2 *)
    let app := log " PHASE 2 : PRE-COMMIT (Préparez-vous)" app in
    let app := set_coord "PRE-COMMIT" COLOR_PRE app in
    let '(ns, area, acks) := ack_loop scenario 0 (nodes app) (log_area app) in
    let app := {| coord_node := coord_node app; nodes := ns; log_area := area |} in
    if negb (all acks) then
      let app := log " DÉCISION : ABORT GLOBAL (Manque un ACK)" app in
      let app := set_coord "SENDING ABORT" COLOR_ABORT app in
      {| coord_node := coord_node app;
         nodes := rollback_loop scenario 0 (nodes app);
         log_area := log_area app |}
    else
      (* phase 3 *)
      let app := log " PHASE 3 : DO-COMMIT (Validation finale)" app in
      let app := set_coord "COMMITTING" COLOR_COMMIT app in
      let '(ns, area) := commit_loop (nodes app) (log_area app) in
      let app := {| coord_node := coord_node app; nodes := ns; log_area := area |} in
      log " SUCCÈS DE LA TRANSACTION DISTRIBUÉE" app.

(** ** Cleaning up the demo files ([example.py])

    [nettoyer_bases] removes each database file with its [-wal] and [-shm]
    companions, retrying up to five times when [os.remove] raises
    [PermissionError].  The file system is the set of the paths that exist;
    [denied] tells for which paths [os.remove] raises.  Printing, [gc.collect]
    and [time.sleep] are left out. *)

(** [if os.path.exists(path): os.remove(path)]; [None] when [os.remove]
    raises [PermissionError]. *)
Definition remove_if_exists (denied : string -> bool) (path : string)
    (fs : gset string) : option (gset string) :=
  if decide (path ∈ fs) then
    if denied path then None else Some (fs ∖ {[ path ]})
  else Some fs.

(** The body of the [try]: the files left, and whether [break] was reached. *)
Definition try_remove_base (denied : string -> bool) (db : string)
    (fs : gset string) : gset string * bool :=
  match remove_if_exists denied db fs with
  | None => (fs, false)
  | Some fs1 =>
      match remove_if_exists denied (db +:+ "-wal") fs1 with
      | None => (fs1, false)
      | Some fs2 =>
          match remove_if_exists denied (db +:+ "-shm") fs2 with
          | None => (fs2, false)
          | Some fs3 => (fs3, true)
          end
      end
  end.

(** [for attempt in range(5): try: ...; break / except PermissionError: ...],
    from [attempt] on with [remaining] attempts left; [denied attempt] are the
    paths locked during that attempt. *)
Fixpoint attempts (denied : nat -> string -> bool) (db : string)
    (attempt remaining : nat) (fs : gset string) : gset string :=
  match remaining with
  | 0 => fs
  | S remaining' =>
      let '(fs', done) := try_remove_base (denied attempt) db fs in
      if done then fs' else attempts denied db (S attempt) remaining' fs'
  end.

(** [nettoyer_bases], the base at position [i] meeting the locks [denied i]. *)
Fixpoint nettoyer_bases (denied : nat -> nat -> string -> bool) (i : nat)
    (bases : list string) (fs : gset string) : gset string :=
  match bases with
  | [] => fs
  | db :: bases' =>
      nettoyer_bases denied (S i) bases' (attempts (denied i) db 0 5 fs)
  end.

(** The files of a base. *)
Definition files_of (db : string) : gset string :=
  {[ db; db +:+ "-wal"; db +:+ "-shm" ]}.

(** The files left by the demo, with a file of the user beside them. *)
Definition demo_files : gset string :=
  {[ "banque_replica_1.db"; "banque_replica_1.db-wal"; "notes.txt" ]}.

(** The database file is locked during the first attempt only. *)
Definition locked_once (i attempt : nat) (path : string) : bool :=
  Nat.eqb attempt 0 && String.eqb path "banque_replica_1.db".


(** * Verification *)

Section ParticipantFacts.
Context `{BackingStore}.

(** ** Record plumbing *)

Lemma set_lock_round (w : PWorld) :
  lock (self w) = false -> set_lock false w = w.
Proof. destruct w as [[] ?]; simpl; intros ->; reflexivity. Qed.

Lemma set_pending_same (w : PWorld) :
  set_pending (_pending_connection (self w)) w = w.
Proof. destruct w as [[] ?]; reflexivity. Qed.

Lemma _log_transaction_eq f w : _log_transaction f w = Returned tt (logged f w).
Proof.
  unfold _log_transaction, logged, try_except, raise, modify, ret.
  destruct (log_fails f); reflexivity.
Qed.

Lemma execute_queries_eq qs conn (w : PWorld) :
  execute_queries qs conn w =
    match execute_all qs conn with
    | Some conn' => Returned conn' w
    | None => Raised w
    end.
Proof.
  revert conn; induction qs as [|q qs IH]; intros conn; simpl; [reflexivity|].
  destruct (execute q conn); [apply IH | reflexivity].
Qed.

(** ** The four methods, case by case

    Each equation holds for a participant whose lock is free, which is the
    case whenever no method of it is running. *)

Lemma can_commit_eq f w :
  lock (self w) = false ->
  can_commit f w =
    if connect_fails f || close_fails f
    then Returned NO (set_state ABORT w)
    else if has_blank_query (Transaction.sql_queries (transaction w))
    then Returned NO w
    else Returned YES
           (logged f (set_transaction_state CAN_COMMIT (set_state CAN_COMMIT w))).
Proof.
  intros Hl. unfold can_commit, with_lock. rewrite Hl.
  unfold sqlite3_connect, conn_close, try_except, bind, gets, ret, raise, modify.
  destruct w as [[pid path st lk pc d] tx]; simpl in *; subst lk.
  destruct (connect_fails f); simpl; [reflexivity|].
  destruct (has_blank_query (Transaction.sql_queries tx)), (close_fails f);
    simpl; try reflexivity.
  rewrite _log_transaction_eq. unfold logged.
  destruct (log_fails f); reflexivity.
Qed.

Lemma pre_commit_eq f w :
  lock (self w) = false ->
  pre_commit f w =
    if decide (state (self w) <> CAN_COMMIT) then Returned NO w
    else if connect_fails f || begin_fails f
    then Returned NO (set_state ABORT w)
    else match execute_all (Transaction.sql_queries (transaction w))
                 (tables (database (self w))) with
         | Some conn =>
             Returned ACK
               (set_transaction_state PRE_COMMIT
                  (set_state PRE_COMMIT (set_pending (Some conn) w)))
         | None => Returned NO (set_state ABORT w)
         end.
Proof.
  intros Hl. unfold pre_commit, with_lock. rewrite Hl.
  unfold sqlite3_connect, begin_immediate, conn_rollback, conn_close,
    try_except, bind, gets, ret, raise, modify.
  destruct w as [[pid path st lk pc d] tx]; simpl in *; subst lk.
  destruct (decide (st <> CAN_COMMIT)); simpl; [reflexivity|].
  destruct (connect_fails f); simpl; [reflexivity|].
  destruct (begin_fails f); simpl;
    [destruct (rollback_fails f), (close_fails f); reflexivity|].
  rewrite execute_queries_eq; simpl.
  destruct (execute_all (Transaction.sql_queries tx) (tables d));
    [reflexivity|].
  destruct (rollback_fails f), (close_fails f); reflexivity.
Qed.

Lemma abort_eq f w :
  lock (self w) = false ->
  abort f w =
    Returned tt
      (logged f (set_transaction_state ABORT
                   (set_state ABORT (set_pending None w)))).
Proof.
  intros Hl. unfold abort, with_lock. rewrite Hl.
  unfold conn_rollback, conn_close, try_except, try_finally, bind, gets, ret,
    raise, modify.
  destruct w as [[pid path st lk pc d] tx]; simpl in *; subst lk.
  destruct pc as [conn|]; simpl.
  - destruct (rollback_fails f); simpl;
      [| destruct (close_fails f); simpl];
      rewrite _log_transaction_eq; unfold logged;
      destruct (log_fails f); reflexivity.
  - rewrite _log_transaction_eq; unfold logged;
      destruct (log_fails f); reflexivity.
Qed.

Lemma do_commit_eq f w :
  lock (self w) = false ->
  do_commit f w =
    if decide (state (self w) <> PRE_COMMIT) then Returned tt w
    else match _pending_connection (self w) with
         | Some conn =>
             if commit_fails f || close_fails f then Blocked
             else Returned tt
                    (logged f
                       (set_transaction_state COMMIT
                          (set_state COMMIT
                             (set_pending None
                                (set_database
                                   {| tables := conn;
                                      transaction_log :=
                                        transaction_log (database (self w)) |}
                                   w)))))
         | None =>
             Returned tt
               (logged f (set_transaction_state COMMIT (set_state COMMIT w)))
         end.
Proof.
  intros Hl. unfold do_commit, with_lock. rewrite Hl.
  unfold conn_commit, conn_close, try_except, bind, gets, ret, raise, modify.
  destruct w as [[pid path st lk pc d] tx]; simpl in *; subst lk.
  destruct (decide (st <> PRE_COMMIT)); simpl; [reflexivity|].
  destruct pc as [conn|]; simpl.
  - destruct (commit_fails f); simpl; [reflexivity|].
    destruct (close_fails f); simpl; [reflexivity|].
    rewrite _log_transaction_eq; unfold logged;
      destruct (log_fails f); reflexivity.
  - rewrite _log_transaction_eq; unfold logged;
      destruct (log_fails f); reflexivity.
Qed.

(** A method that returns found the lock free. *)
Lemma with_lock_returned {A} (body : M PWorld A) w a w' :
  with_lock body w = Returned a w' -> lock (self w) = false.
Proof. unfold with_lock. destruct (lock (self w)); [discriminate | reflexivity]. Qed.

Lemma logged_self f w :
  state (self (logged f w)) = state (self w)
  /\ lock (self (logged f w)) = lock (self w)
  /\ _pending_connection (self (logged f w)) = _pending_connection (self w)
  /\ tables (database (self (logged f w))) = tables (database (self w))
  /\ transaction (logged f w) = transaction w.
Proof. unfold logged. destruct (log_fails f); simpl; auto. Qed.

End ParticipantFacts.

(** Reads the fields of a world through a log write. *)
Ltac through_log :=
  match goal with
  | |- context [@logged _ ?f ?x] =>
      let Hs := fresh in let Hk := fresh in let Hp := fresh in
      let Ht := fresh in let Hx := fresh in
      destruct (logged_self f x) as (Hs & Hk & Hp & Ht & Hx);
      rewrite ?Hs, ?Hk, ?Hp, ?Ht, ?Hx; clear Hs Hk Hp Ht Hx
  end.

Section ParticipantClaims.
Context `{BackingStore}.

(** C4 (as amended).  On a transaction with a statement that is empty
    once stripped, and no library call faulting, [can_commit] returns NO
    and leaves the participant, the transaction and the log exactly as they
    were: the local state is not moved.  On a fault during validation it
    returns NO with local state ABORT and nothing else changed.  Whenever
    the vote is NO the database, log included, is as before, so the log is
    written on the YES path only. *)
Theorem can_commit_rejections (f : Faults) (w : PWorld) :
  lock (self w) = false ->
  (has_blank_query (Transaction.sql_queries (transaction w)) = true ->
   connect_fails f || close_fails f = false ->
   can_commit f w = Returned NO w)
  /\ (connect_fails f || close_fails f = true ->
      can_commit f w = Returned NO (set_state ABORT w))
  /\ (forall w',
        can_commit f w = Returned NO w' ->
        database (self w') = database (self w)
        /\ transaction w' = transaction w).
Proof.
  intros Hl. rewrite can_commit_eq by assumption.
  split; [|split].
  - intros -> ->. reflexivity.
  - intros ->. reflexivity.
  - intros w' Hr.
    destruct (connect_fails f || close_fails f).
    + injection Hr as <-. destruct w as [[] ?]; auto.
    + destruct (has_blank_query _); [injection Hr as <-; auto | discriminate].
Qed.

(** C8 (where the code departs from it).  A fault while finalizing the
    pending write makes [do_commit] call [abort] with the lock still held:
    the call neither returns nor raises, and no local abort takes place. *)
Theorem do_commit_finalize_fault_blocks (f : Faults) (w : PWorld) (conn : Data) :
  lock (self w) = false ->
  state (self w) = PRE_COMMIT ->
  _pending_connection (self w) = Some conn ->
  commit_fails f || close_fails f = true ->
  do_commit f w = Blocked.
Proof.
  intros Hl Hs Hp Hf. rewrite do_commit_eq by assumption.
  rewrite Hs, Hp, Hf. destruct (decide (PRE_COMMIT <> PRE_COMMIT)); congruence.
Qed.

(** The part of C8 that holds: no method lets an exception out, and the
    two voting methods and [abort] always return. *)
Lemma can_commit_returns (f : Faults) (w : PWorld) :
  lock (self w) = false -> exists v w', can_commit f w = Returned v w'.
Proof.
  intros Hl. rewrite can_commit_eq by assumption.
  destruct (connect_fails f || close_fails f); [eauto|].
  destruct (has_blank_query _); eauto.
Qed.

Lemma pre_commit_returns (f : Faults) (w : PWorld) :
  lock (self w) = false ->
  exists v w', pre_commit f w = Returned v w' /\ (v = ACK \/ v = NO).
Proof.
  intros Hl. rewrite pre_commit_eq by assumption.
  destruct (decide _); [eauto|].
  destruct (connect_fails f || begin_fails f); [eauto|].
  destruct (execute_all _ _); eauto.
Qed.

Lemma abort_returns (f : Faults) (w : PWorld) :
  lock (self w) = false -> exists w', abort f w = Returned tt w'.
Proof. intros Hl. rewrite abort_eq by assumption. eauto. Qed.

Lemma methods_never_raise (f : Faults) (w w' : PWorld) :
  lock (self w) = false ->
  can_commit f w <> Raised w' /\ pre_commit f w <> Raised w'
  /\ do_commit f w <> Raised w' /\ abort f w <> Raised w'.
Proof.
  intros Hl.
  rewrite can_commit_eq, pre_commit_eq, do_commit_eq, abort_eq by assumption.
  repeat split.
  - destruct (connect_fails f || close_fails f); [discriminate|].
    destruct (has_blank_query _); discriminate.
  - destruct (decide _); [discriminate|].
    destruct (connect_fails f || begin_fails f); [discriminate|].
    destruct (execute_all _ _); discriminate.
  - destruct (decide _); [discriminate|].
    destruct (_pending_connection (self w)); [|discriminate].
    destruct (commit_fails f || close_fails f); discriminate.
  - discriminate.
Qed.

(** C9.  On a participant already in ABORT with no pending write, [abort]
    returns, the tables are the same, the local state is still ABORT and no
    write is pending; only the log row may have been written again. *)
Theorem abort_on_aborted_changes_no_data (f : Faults) (w : PWorld) :
  lock (self w) = false ->
  state (self w) = ABORT ->
  _pending_connection (self w) = None ->
  exists w',
    abort f w = Returned tt w'
    /\ tables (database (self w')) = tables (database (self w))
    /\ state (self w') = ABORT
    /\ _pending_connection (self w') = None
    /\ lock (self w') = false
    /\ (log_fails f = true -> self w' = self w).
Proof.
  intros Hl Hs Hp. eexists. split; [apply abort_eq; assumption|].
  destruct (logged_self f
              (set_transaction_state ABORT (set_state ABORT (set_pending None w))))
    as (-> & -> & -> & -> & _).
  simpl. repeat split; auto.
  intros Hf. unfold logged. rewrite Hf.
  destruct w as [[] ?]; simpl in *; subst; reflexivity.
Qed.

End ParticipantClaims.

Section PendingHandle.
Context `{BackingStore}.

(** C7 (as amended).  From a participant that satisfies the invariant
    "a pending write handle is present only in local state PRE_COMMIT":
    [pre_commit] and [abort] return and keep it, [do_commit] returns and
    keeps it when finalizing does not fault; a transition to ABORT or to
    COMMIT leaves no handle; [do_commit] creates no handle; [can_commit]
    returns and never touches the handle, so it keeps the invariant when
    no write is pending at the call. *)
Theorem pending_handle_discipline (f : Faults) (w : PWorld) :
  lock (self w) = false ->
  pending_only_in_pre_commit (self w) ->
  (exists v w',
      pre_commit f w = Returned v w'
      /\ pending_only_in_pre_commit (self w')
      /\ (state (self w') = ABORT -> _pending_connection (self w') = None))
  /\ (commit_fails f || close_fails f = false ->
      exists w',
        do_commit f w = Returned tt w'
        /\ pending_only_in_pre_commit (self w')
        /\ (state (self w') = COMMIT -> _pending_connection (self w') = None)
        /\ (_pending_connection (self w) = None ->
            _pending_connection (self w') = None))
  /\ (exists w',
        abort f w = Returned tt w'
        /\ state (self w') = ABORT
        /\ _pending_connection (self w') = None)
  /\ (exists v w',
        can_commit f w = Returned v w'
        /\ _pending_connection (self w') = _pending_connection (self w)
        /\ (_pending_connection (self w) = None ->
            pending_only_in_pre_commit (self w'))).
Proof.
  intros Hl Hinv. unfold pending_only_in_pre_commit in *.
  split; [|split; [|split]].
  - rewrite pre_commit_eq by assumption.
    destruct (decide (state (self w) <> CAN_COMMIT)) as [Hne|He].
    + exists NO, w. repeat split; auto.
      intros Ha. destruct (_pending_connection (self w)) eqn:Hp; [|reflexivity].
      rewrite Hinv in Ha by discriminate. discriminate.
    + assert (Hs : state (self w) = CAN_COMMIT)
        by (destruct (decide (state (self w) = CAN_COMMIT)); [assumption | contradiction]).
      assert (Hp : _pending_connection (self w) = None).
      { destruct (_pending_connection (self w)) eqn:Hp; [|reflexivity].
        rewrite Hinv in Hs by discriminate. discriminate. }
      destruct (connect_fails f || begin_fails f);
        [| destruct (execute_all _ _)];
        do 2 eexists; (split; [reflexivity|]); simpl; split; auto;
          try (intros; discriminate); intros; congruence.
  - intros Hf. rewrite do_commit_eq by assumption. rewrite Hf.
    destruct (decide (state (self w) <> PRE_COMMIT)) as [Hne|He].
    + exists w. repeat split; auto.
      intros Hc. destruct (_pending_connection (self w)) eqn:Hp; [|reflexivity].
      rewrite Hinv in Hc by discriminate. discriminate.
    + destruct (_pending_connection (self w)) eqn:Hp;
        eexists; (split; [reflexivity|]);
        through_log; simpl; repeat split; auto; try congruence.
  - eexists. split; [apply abort_eq; assumption|].
    through_log. simpl. auto.
  - rewrite can_commit_eq by assumption.
    destruct (connect_fails f || close_fails f);
      [| destruct (has_blank_query _)];
      do 2 eexists; (split; [reflexivity|]);
      try through_log; simpl; split; auto; intros; congruence.
Qed.

End PendingHandle.

(** ** The heap and the roster loops *)

Section HeapFacts.
Context `{BackingStore}.

Lemma update_eq {A} i (x : A) h : update i x h i = x.
Proof. unfold update. rewrite Nat.eqb_refl. reflexivity. Qed.

Lemma update_ne {A} i j (x : A) h : j <> i -> update i x h j = h j.
Proof.
  intros Hne. unfold update.
  destruct (Nat.eqb_spec j i); [contradiction | reflexivity].
Qed.

Lemma store_participant_eq r t pw w : participant_at (store r t pw w) r = self pw.
Proof. apply update_eq. Qed.

Lemma store_participant_ne r t pw w a :
  a <> r -> participant_at (store r t pw w) a = participant_at w a.
Proof. apply update_ne. Qed.

Lemma store_transaction_eq r t pw w : transaction_at (store r t pw w) t = transaction pw.
Proof. apply update_eq. Qed.

Lemma store_transaction_ne r t pw w t' :
  t' <> t -> transaction_at (store r t pw w) t' = transaction_at w t'.
Proof. apply update_ne. Qed.

Lemma call_returned {A} r t (m : M PWorld A) w a w' :
  call r t m w = Returned a w' ->
  exists pw,
    m {| self := participant_at w r; transaction := transaction_at w t |}
      = Returned a pw
    /\ w' = store r t pw w.
Proof.
  unfold call. destruct (m _) as [a' pw|pw|]; try discriminate.
  intros [= -> <-]. eauto.
Qed.

Lemma for_each_cons {A} (m : Faults -> M PWorld A) fs t i r roster w x pw xs w' :
  m (fs i) {| self := participant_at w r; transaction := transaction_at w t |}
    = Returned x pw ->
  for_each m fs t (S i) roster (store r t pw w) = Returned xs w' ->
  for_each m fs t i (r :: roster) w = Returned (x :: xs) w'.
Proof.
  intros Hm Hrest. simpl. unfold bind at 1. unfold call. rewrite Hm.
  unfold bind. rewrite Hrest. reflexivity.
Qed.

Lemma for_each_cons_returned {A} (m : Faults -> M PWorld A) fs t i r roster w ys w' :
  for_each m fs t i (r :: roster) w = Returned ys w' ->
  exists x pw xs,
    m (fs i) {| self := participant_at w r; transaction := transaction_at w t |}
      = Returned x pw
    /\ for_each m fs t (S i) roster (store r t pw w) = Returned xs w'
    /\ ys = x :: xs.
Proof.
  simpl. unfold bind at 1.
  destruct (call r t (m (fs i)) w) as [x w1|w1|] eqn:Hc; try discriminate.
  apply call_returned in Hc as (pw & Hm & ->).
  unfold bind.
  destruct (for_each m fs t (S i) roster _) as [xs w2|w2|] eqn:Hr; try discriminate.
  unfold ret. intros [= <- <-]. eauto 10.
Qed.

(** A loop that returned: what every call guarantees of the participant
    and of the transaction holds from the first heap to the last, objects
    outside the roster are untouched, and one result was collected per
    roster entry. *)
Lemma for_each_returned {A} (m : Faults -> M PWorld A) fs t
    (R : Participant -> Participant -> Prop)
    (T : Transaction -> Transaction -> Prop) :
  (forall p, R p p) -> (forall p q s, R p q -> R q s -> R p s) ->
  (forall x, T x x) -> (forall x y z, T x y -> T y z -> T x z) ->
  (forall f pw a pw',
      m f pw = Returned a pw' ->
      R (self pw) (self pw') /\ T (transaction pw) (transaction pw')) ->
  forall roster i w xs w',
    for_each m fs t i roster w = Returned xs w' ->
    (forall a, R (participant_at w a) (participant_at w' a))
    /\ T (transaction_at w t) (transaction_at w' t)
    /\ (forall a, a ∉ roster -> participant_at w' a = participant_at w a)
    /\ (forall t', t' <> t -> transaction_at w' t' = transaction_at w t')
    /\ length xs = length roster.
Proof.
  intros Rrefl Rtrans Trefl Ttrans Hm.
  induction roster as [|r roster IH]; intros i w xs w' Hrun.
  - simpl in Hrun. injection Hrun as <- <-. repeat split; auto.
  - apply for_each_cons_returned in Hrun as (x & pw & ys & Hcall & Hrest & ->).
    apply Hm in Hcall as [HR HT]. simpl in HR, HT.
    apply IH in Hrest as (IHR & IHT & IHout & IHtx & IHlen).
    repeat split.
    + intros a. eapply Rtrans; [|apply IHR].
      destruct (decide (a = r)) as [->|Hne].
      * rewrite store_participant_eq. exact HR.
      * rewrite store_participant_ne by assumption. apply Rrefl.
    + eapply Ttrans; [|apply IHT]. rewrite store_transaction_eq. exact HT.
    + intros a Ha. rewrite not_elem_of_cons in Ha. destruct Ha as [Hne Ha].
      rewrite IHout by assumption. apply store_participant_ne; assumption.
    + intros t' Hne. rewrite IHtx by assumption.
      apply store_transaction_ne; assumption.
    + simpl. congruence.
Qed.

Lemma for_each_frame {A} (m : Faults -> M PWorld A) fs t roster i w xs w' :
  for_each m fs t i roster w = Returned xs w' ->
  forall a, a ∉ roster -> participant_at w' a = participant_at w a.
Proof.
  intros Hrun.
  eapply (for_each_returned m fs t (fun _ _ => True) (fun _ _ => True)) in Hrun;
    [apply Hrun | auto ..].
Qed.

(** A loop whose every call is sure to return and to establish [Q] from
    [J] or [Q]: it returns, and [Q] holds of every roster entry. *)
Lemma for_each_establishes {A} (m : Faults -> M PWorld A) fs t
    (Fok : Faults -> Prop) (J Q : nat -> Participant -> Prop) :
  (forall f r p tx,
      Fok f -> J r p \/ Q r p ->
      exists a pw',
        m f {| self := p; transaction := tx |} = Returned a pw'
        /\ Q r (self pw')) ->
  forall roster i w,
    (forall j, i <= j < i + length roster -> Fok (fs j)) ->
    (forall r, r ∈ roster -> J r (participant_at w r) \/ Q r (participant_at w r)) ->
    exists xs w',
      for_each m fs t i roster w = Returned xs w'
      /\ (forall r, r ∈ roster -> Q r (participant_at w' r)).
Proof.
  intros Hm.
  induction roster as [|r roster IH]; intros i w Hfs Hpre.
  - exists [], w. split; [reflexivity|]. intros r Hr. inversion Hr.
  - destruct (Hm (fs i) r (participant_at w r) (transaction_at w t))
      as (x & pw & Hcall & HQ).
    { apply Hfs. simpl. lia. }
    { apply Hpre. left. }
    destruct (IH (S i) (store r t pw w)) as (xs & w' & Hrest & HQs).
    { intros j Hj. apply Hfs. simpl. lia. }
    { intros a Ha. destruct (decide (a = r)) as [->|Hne].
      - rewrite store_participant_eq. right. exact HQ.
      - rewrite store_participant_ne by assumption. apply Hpre. right. exact Ha. }
    exists (x :: xs), w'. split.
    + eapply for_each_cons; eassumption.
    + intros a Ha. apply elem_of_cons in Ha as [->|Ha]; [|auto].
      destruct (decide (r ∈ roster)) as [Hin|Hout]; [auto|].
      rewrite (for_each_frame _ _ _ _ _ _ _ _ Hrest) by assumption.
      rewrite store_participant_eq. exact HQ.
Qed.

End HeapFacts.

Section MethodFrames.
Context `{BackingStore}.

Lemma abort_guarded_eq f (w : PWorld) : try_except (abort f) (ret tt) w = abort f w.
Proof.
  unfold try_except. destruct (lock (self w)) eqn:Hl.
  - unfold abort, with_lock. rewrite Hl. reflexivity.
  - rewrite abort_eq by assumption. reflexivity.
Qed.

Lemma can_commit_frame f pw v pw' :
  can_commit f pw = Returned v pw' ->
  same_lock_and_tables (self pw) (self pw')
  /\ same_statements (transaction pw) (transaction pw').
Proof.
  intros Hr. pose proof (with_lock_returned _ _ _ _ Hr) as Hl.
  rewrite can_commit_eq in Hr by assumption.
  unfold same_lock_and_tables, same_statements.
  destruct (connect_fails f || close_fails f); [injection Hr as <- <-; simpl; auto|].
  destruct (has_blank_query _); injection Hr as <- <-; [auto|].
  through_log. simpl. auto.
Qed.

Lemma pre_commit_frame f pw v pw' :
  pre_commit f pw = Returned v pw' ->
  same_lock_and_tables (self pw) (self pw')
  /\ same_statements (transaction pw) (transaction pw').
Proof.
  intros Hr. pose proof (with_lock_returned _ _ _ _ Hr) as Hl.
  rewrite pre_commit_eq in Hr by assumption.
  unfold same_lock_and_tables, same_statements.
  destruct (decide _); [injection Hr as <- <-; auto|].
  destruct (connect_fails f || begin_fails f); [injection Hr as <- <-; simpl; auto|].
  destruct (execute_all _ _); injection Hr as <- <-; simpl; auto.
Qed.

Lemma abort_frame f pw u pw' :
  try_except (abort f) (ret tt) pw = Returned u pw' ->
  same_lock_and_tables (self pw) (self pw')
  /\ same_statements (transaction pw) (transaction pw').
Proof.
  rewrite abort_guarded_eq.
  intros Hr. pose proof (with_lock_returned _ _ _ _ Hr) as Hl.
  rewrite abort_eq in Hr by assumption.
  unfold same_lock_and_tables, same_statements.
  injection Hr as _ <-.
  through_log. simpl. auto.
Qed.

Lemma same_lock_and_tables_refl p : same_lock_and_tables p p.
Proof. split; reflexivity. Qed.

Lemma same_lock_and_tables_trans p q s :
  same_lock_and_tables p q -> same_lock_and_tables q s -> same_lock_and_tables p s.
Proof. intros [? ?] [? ?]. split; congruence. Qed.

Lemma same_statements_refl x : same_statements x x.
Proof. split; reflexivity. Qed.

Lemma same_statements_trans x y z :
  same_statements x y -> same_statements y z -> same_statements x z.
Proof. intros [? ?] [? ?]. split; congruence. Qed.

(** A roster loop over a locking method that returned found every lock of
    the roster free. *)
Lemma for_each_found_unlocked {A} (m : Faults -> M PWorld A) fs t :
  (forall f pw a pw',
      m f pw = Returned a pw' -> lock (self pw) = false /\ lock (self pw') = false) ->
  forall roster i w xs w',
    for_each m fs t i roster w = Returned xs w' ->
    forall r, r ∈ roster -> lock (participant_at w r) = false.
Proof.
  intros Hm. induction roster as [|r roster IH]; intros i w xs w' Hrun a Ha.
  - inversion Ha.
  - apply for_each_cons_returned in Hrun as (x & pw & ys & Hcall & Hrest & ->).
    apply Hm in Hcall as [Hl Hl']. simpl in Hl.
    destruct (decide (a = r)) as [->|Hne]; [assumption|].
    apply elem_of_cons in Ha as [->|Ha]; [contradiction|].
    specialize (IH _ _ _ _ Hrest a Ha).
    rewrite store_participant_ne in IH; assumption.
Qed.

Lemma locking_method_unlocked {A} (body : M PWorld A) pw a pw' :
  with_lock body pw = Returned a pw' ->
  lock (self pw) = false /\ lock (self pw') = false.
Proof.
  unfold with_lock. destruct (lock (self pw)); [discriminate|].
  destruct (body _); try discriminate.
  intros [= _ <-]. split; [reflexivity|]. destruct s as [[] ?]; reflexivity.
Qed.

(** [_abort_all] from a heap whose roster locks are free: it returns, and
    every roster entry is in ABORT without pending write, its tables as
    they were. *)
Lemma _abort_all_aborts c o t w :
  (forall r, r ∈ participants c -> lock (participant_at w r) = false) ->
  exists w',
    _abort_all c o t w = Returned tt w'
    /\ forall r, r ∈ participants c ->
         state (participant_at w' r) = ABORT
         /\ _pending_connection (participant_at w' r) = None
         /\ lock (participant_at w' r) = false
         /\ tables (database (participant_at w' r))
            = tables (database (participant_at w r)).
Proof.
  intros Hl.
  destruct (for_each_establishes
              (fun f => try_except (abort f) (ret tt)) (at_abort o) t
              (fun _ => True)
              (fun r p => lock p = false
                          /\ tables (database p)
                             = tables (database (participant_at w r)))
              (fun r p => state p = ABORT /\ _pending_connection p = None
                          /\ lock p = false
                          /\ tables (database p)
                             = tables (database (participant_at w r))))
    with (roster := participants c) (i := 0) (w := w) as (xs & w' & Hrun & HQ).
  - intros f r p tx _ Hpre.
    assert (Hp : lock p = false
                 /\ tables (database p) = tables (database (participant_at w r)))
      by (destruct Hpre as [[? ?]|(_ & _ & ? & ?)]; auto).
    destruct Hp as [Hlp Htp].
    rewrite abort_guarded_eq, abort_eq by assumption.
    do 2 eexists. split; [reflexivity|].
    through_log. simpl. auto.
  - auto.
  - intros r Hr. left. auto.
  - exists w'. split; [|exact HQ].
    unfold _abort_all, bind. rewrite Hrun. reflexivity.
Qed.

End MethodFrames.

Section CoordinatorClaims.
Context `{BackingStore}.

Lemma phase_frame {A} (m : Faults -> M PWorld A) fs t roster i w xs w' :
  (forall f pw a pw',
      m f pw = Returned a pw' ->
      same_lock_and_tables (self pw) (self pw')
      /\ same_statements (transaction pw) (transaction pw')) ->
  for_each m fs t i roster w = Returned xs w' ->
  (forall a, same_lock_and_tables (participant_at w a) (participant_at w' a))
  /\ same_statements (transaction_at w t) (transaction_at w' t)
  /\ length xs = length roster.
Proof.
  intros Hm Hrun.
  eapply (for_each_returned m fs t same_lock_and_tables same_statements) in Hrun;
    eauto using same_lock_and_tables_refl, same_lock_and_tables_trans,
      same_statements_refl, same_statements_trans.
  destruct Hrun as (? & ? & _ & _ & ?). auto.
Qed.

(** Phase 1 and phase 2 return whenever the locks of the roster are
    free. *)
Lemma voting_phase_returns (m : Faults -> M PWorld Vote) fs t roster w :
  (forall f pw, lock (self pw) = false ->
     exists v pw', m f pw = Returned v pw' /\ lock (self pw') = false) ->
  (forall r, r ∈ roster -> lock (participant_at w r) = false) ->
  exists votes w', for_each m fs t 0 roster w = Returned votes w'.
Proof.
  intros Hm Hfree.
  destruct (for_each_establishes m fs t (fun _ => True)
              (fun _ p => lock p = false) (fun _ p => lock p = false))
    with (roster := roster) (i := 0) (w := w) as (votes & w' & Hrun & _);
    eauto.
  intros f r p tx _ Hl.
  destruct (Hm f {| self := p; transaction := tx |}) as (v & pw' & Hr & Hl');
    [destruct Hl; assumption | eauto].
Qed.

Lemma phase1_returns fs t roster w :
  (forall r, r ∈ roster -> lock (participant_at w r) = false) ->
  exists votes w', for_each can_commit fs t 0 roster w = Returned votes w'.
Proof.
  apply voting_phase_returns. intros f pw Hl.
  destruct (can_commit_returns f pw Hl) as (v & pw' & Hr).
  exists v, pw'. split; [exact Hr|].
  apply (locking_method_unlocked _ _ _ _ Hr).
Qed.

Lemma phase2_returns fs t roster w :
  (forall r, r ∈ roster -> lock (participant_at w r) = false) ->
  exists acks w', for_each pre_commit fs t 0 roster w = Returned acks w'.
Proof.
  apply voting_phase_returns. intros f pw Hl.
  destruct (pre_commit_returns f pw Hl) as (v & pw' & Hr & _).
  exists v, pw'. split; [exact Hr|].
  apply (locking_method_unlocked _ _ _ _ Hr).
Qed.

(** C2.  When the phase-1 votes contain a NO, [execute_transaction] runs
    [_abort_all] on the roster from the heap phase 1 left and returns
    false; every participant of the roster ends in ABORT with no pending
    write, and its tables are those it started with. *)
Theorem no_vote_aborts_everywhere (c : Coordinator) (o : Oracle) (t : nat)
    (w w1 : World) (votes : list Vote) :
  for_each can_commit (at_can_commit o) t 0 (participants c) w = Returned votes w1 ->
  NO ∈ votes ->
  exists w',
    _abort_all c o t w1 = Returned tt w'
    /\ execute_transaction c o t w = Returned false w'
    /\ forall r, r ∈ participants c ->
         state (participant_at w' r) = ABORT
         /\ _pending_connection (participant_at w' r) = None
         /\ tables (database (participant_at w' r))
            = tables (database (participant_at w r)).
Proof.
  intros Hp1 Hno.
  pose proof (for_each_found_unlocked can_commit _ t
                (fun f pw a pw' => locking_method_unlocked _ pw a pw')
                _ _ _ _ _ Hp1) as Hfree.
  destruct (phase_frame _ _ _ _ _ _ _ _ can_commit_frame Hp1) as (Hsame & _ & _).
  destruct (_abort_all_aborts c o t w1) as (w' & Hab & Hend).
  { intros r Hr. destruct (Hsame r) as [-> _]. auto. }
  exists w'. split; [exact Hab|]. split.
  - unfold execute_transaction, try_except. unfold bind at 1. rewrite Hp1.
    rewrite bool_decide_eq_true_2 by assumption.
    unfold bind. rewrite Hab. reflexivity.
  - intros r Hr. destruct (Hend r Hr) as (? & ? & _ & Ht).
    destruct (Hsame r) as [_ Ht1]. repeat split; congruence.
Qed.


(** C10.  With an empty roster both vote lists are empty: no NO is found
    in phase 1, no ACK is found in phase 2, and [execute_transaction]
    takes the abort path and returns false, the heap untouched. *)
Theorem empty_roster_returns_false (c : Coordinator) (o : Oracle) (t : nat)
    (w : World) :
  participants c = [] ->
  for_each can_commit (at_can_commit o) t 0 (participants c) w = Returned [] w
  /\ for_each pre_commit (at_pre_commit o) t 0 (participants c) w = Returned [] w
  /\ bool_decide (NO ∈ @nil Vote) = false
  /\ bool_decide (ACK ∉ @nil Vote) = true
  /\ execute_transaction c o t w = Returned false w.
Proof.
  intros Hempty. unfold execute_transaction, _abort_all. rewrite Hempty.
  repeat split; reflexivity.
Qed.

End CoordinatorClaims.

Section UnanimousRun.
Context `{BackingStore}.

(** An ACK tells that the statements ran on the committed tables and that
    their result is held as the pending write. *)
Lemma pre_commit_ack f pw pw' :
  pre_commit f pw = Returned ACK pw' ->
  exists conn,
    execute_all (Transaction.sql_queries (transaction pw))
      (tables (database (self pw))) = Some conn
    /\ state (self pw) = CAN_COMMIT
    /\ state (self pw') = PRE_COMMIT
    /\ _pending_connection (self pw') = Some conn
    /\ lock (self pw') = false.
Proof.
  intros Hr. pose proof (with_lock_returned _ _ _ _ Hr) as Hl.
  rewrite pre_commit_eq in Hr by assumption.
  destruct (decide _) as [|Hs]; [discriminate|].
  destruct (connect_fails f || begin_fails f); [discriminate|].
  destruct (execute_all _ _) as [conn|]; [|discriminate].
  injection Hr as <-. exists conn. simpl. repeat split; auto.
  destruct (decide (state (self pw) = CAN_COMMIT)); [assumption | contradiction].
Qed.

(** Phase 2 answered only ACK: every participant of the roster is in
    PRE_COMMIT and holds, as its pending write, the tables it had with the
    statements applied. *)
Lemma all_ack_prepared fs t roster :
  forall i w acks w',
    for_each pre_commit fs t i roster w = Returned acks w' ->
    Forall (eq ACK) acks ->
    forall r, r ∈ roster ->
      exists conn,
        execute_all (Transaction.sql_queries (transaction_at w t))
          (tables (database (participant_at w r))) = Some conn
        /\ state (participant_at w' r) = PRE_COMMIT
        /\ _pending_connection (participant_at w' r) = Some conn
        /\ lock (participant_at w' r) = false.
Proof.
  induction roster as [|r roster IH]; intros i w acks w' Hrun Hall a Ha.
  - inversion Ha.
  - apply for_each_cons_returned in Hrun as (x & pw & ys & Hcall & Hrest & ->).
    apply Forall_cons in Hall as [<- Hall].
    destruct (pre_commit_frame _ _ _ _ Hcall) as [[_ Htab] [Hqs _]].
    apply pre_commit_ack in Hcall as (conn & Hex & _ & Hst & Hpc & Hlk).
    simpl in *.
    destruct (decide (a ∈ roster)) as [Hin|Hout].
    + destruct (IH _ _ _ _ Hrest Hall a Hin) as (conn' & Hex' & Hrest').
      exists conn'. split; [|exact Hrest'].
      rewrite store_transaction_eq, Hqs in Hex'.
      destruct (decide (a = r)) as [->|Hne].
      * rewrite store_participant_eq, Htab in Hex'. exact Hex'.
      * rewrite store_participant_ne in Hex' by assumption. exact Hex'.
    + apply elem_of_cons in Ha as [->|Ha]; [|contradiction].
      exists conn. split; [exact Hex|].
      rewrite (for_each_frame _ _ _ _ _ _ _ _ Hrest) by assumption.
      rewrite store_participant_eq. auto.
Qed.

(** [do_commit] on a participant that is prepared with [conn], or already
    committed with it, when finalizing does not fault. *)
Lemma do_commit_finalizes f p tx conn :
  finalizes f ->
  (state p = PRE_COMMIT /\ _pending_connection p = Some conn /\ lock p = false)
  \/ (state p = COMMIT /\ _pending_connection p = None /\ lock p = false
      /\ tables (database p) = conn) ->
  exists u pw',
    do_commit f {| self := p; transaction := tx |} = Returned u pw'
    /\ state (self pw') = COMMIT /\ _pending_connection (self pw') = None
    /\ lock (self pw') = false /\ tables (database (self pw')) = conn.
Proof.
  intros [Hc Hx] [(Hs & Hp & Hl)|(Hs & Hp & Hl & Ht)];
    rewrite do_commit_eq by assumption; simpl; rewrite Hs.
  - rewrite Hp, Hc, Hx. simpl.
    do 2 eexists. split; [reflexivity|]. through_log. simpl. auto.
  - simpl. do 2 eexists. split; [reflexivity|]. simpl. auto.
Qed.

(** C1 (as amended).  On a non-empty roster, when every participant
    answers YES in phase 1 and ACK in phase 2 and none faults while
    finalizing in phase 3, [execute_transaction] returns true, every
    participant ends in COMMIT with no pending write, and the tables of
    each are the ones it started with, with the statements of the
    transaction applied in order. *)
Theorem unanimous_run_commits (c : Coordinator) (o : Oracle) (t : nat) (w : World) :
  participants c <> [] ->
  unanimous c o t w ->
  (forall i, i < length (participants c) -> finalizes (at_do_commit o i)) ->
  commits_everywhere c o t w.
Proof.
  intros Hne (votes & w1 & acks & w2 & Hp1 & Hyes & Hp2 & Hack) Hfin.
  destruct (phase_frame _ _ _ _ _ _ _ _ can_commit_frame Hp1)
    as (Hsame1 & [Hqs1 _] & _).
  destruct (phase_frame _ _ _ _ _ _ _ _ pre_commit_frame Hp2)
    as (Hsame2 & _ & Hlen).
  pose proof (all_ack_prepared _ _ _ _ _ _ _ Hp2 Hack) as Hprep.
  destruct (for_each_establishes do_commit (at_do_commit o) t finalizes
              (fun r p =>
                 exists conn,
                   execute_all (Transaction.sql_queries (transaction_at w t))
                     (tables (database (participant_at w r))) = Some conn
                   /\ state p = PRE_COMMIT /\ _pending_connection p = Some conn
                   /\ lock p = false)
              (fun r p =>
                 exists conn,
                   execute_all (Transaction.sql_queries (transaction_at w t))
                     (tables (database (participant_at w r))) = Some conn
                   /\ state p = COMMIT /\ _pending_connection p = None
                   /\ lock p = false /\ tables (database p) = conn))
    with (roster := participants c) (i := 0) (w := w2)
    as (us & w' & Hp3 & Hend).
  - intros f r p tx Hf [(conn & Hex & Hpre)|(conn & Hex & Hs & Hp & Hl & Ht)].
    + destruct (do_commit_finalizes f p tx conn Hf) as (u & pw' & Hr & Hpost);
        [left; exact Hpre|].
      exists u, pw'. split; [exact Hr|]. exists conn. split; [exact Hex|exact Hpost].
    + destruct (do_commit_finalizes f p tx conn Hf) as (u & pw' & Hr & Hpost);
        [right; auto|].
      exists u, pw'. split; [exact Hr|]. exists conn. split; [exact Hex|exact Hpost].
  - intros j Hj. apply Hfin. lia.
  - intros r Hr. left. destruct (Hprep r Hr) as (conn & Hex & Hpost).
    exists conn. split; [|exact Hpost].
    rewrite <- Hqs1. destruct (Hsame1 r) as [_ <-]. exact Hex.
  - exists w'. split.
    + unfold execute_transaction, try_except. unfold bind at 1. rewrite Hp1.
      rewrite bool_decide_eq_false_2
        by (intros Hin; rewrite Forall_forall in Hyes;
            specialize (Hyes _ Hin); discriminate).
      unfold bind at 1. rewrite Hp2.
      rewrite (bool_decide_eq_false_2 (NO ∈ acks))
        by (intros Hin; rewrite Forall_forall in Hack;
            specialize (Hack _ Hin); discriminate).
      rewrite (bool_decide_eq_false_2 (ACK ∉ acks)).
      * simpl. unfold bind. rewrite Hp3. reflexivity.
      * intros Hnot. apply Hnot.
        destruct acks as [|a acks];
          [destruct (participants c); [congruence | discriminate]|].
        apply Forall_cons in Hack as [<- _]. left.
    + intros r Hr. destruct (Hend r Hr) as (conn & Hex & Hs & Hp & _ & Ht).
      repeat split; [exact Hs | exact Hp | congruence].
Qed.

End UnanimousRun.

(** ** Sequences of calls *)

Section Moves.
Context `{BackingStore}.

(** How each method moves the local state and the state of the record. *)
Lemma can_commit_moves f pw v pw' :
  can_commit f pw = Returned v pw' ->
  (v = YES /\ state (self pw') = CAN_COMMIT
   /\ Transaction.state (transaction pw') = CAN_COMMIT)
  \/ (v = NO /\ transaction pw' = transaction pw
      /\ (state (self pw') = state (self pw) \/ state (self pw') = ABORT)).
Proof.
  intros Hr. pose proof (with_lock_returned _ _ _ _ Hr) as Hl.
  rewrite can_commit_eq in Hr by assumption.
  destruct (connect_fails f || close_fails f);
    [injection Hr as <- <-; right; simpl; auto|].
  destruct (has_blank_query _); injection Hr as <- <-; [right; auto|].
  left. through_log. simpl. auto.
Qed.

Lemma pre_commit_moves f pw v pw' :
  pre_commit f pw = Returned v pw' ->
  (v = ACK /\ state (self pw) = CAN_COMMIT /\ state (self pw') = PRE_COMMIT
   /\ Transaction.state (transaction pw') = PRE_COMMIT)
  \/ (v = NO /\ transaction pw' = transaction pw
      /\ (state (self pw') = state (self pw) \/ state (self pw') = ABORT)).
Proof.
  intros Hr. pose proof (with_lock_returned _ _ _ _ Hr) as Hl.
  rewrite pre_commit_eq in Hr by assumption.
  destruct (decide _) as [|Hs]; [injection Hr as <- <-; right; auto|].
  assert (state (self pw) = CAN_COMMIT)
    by (destruct (decide (state (self pw) = CAN_COMMIT));
        [assumption | contradiction]).
  destruct (connect_fails f || begin_fails f);
    [injection Hr as <- <-; right; simpl; auto|].
  destruct (execute_all _ _); injection Hr as <- <-;
    [left | right]; simpl; auto.
Qed.

Lemma do_commit_moves f pw u pw' :
  do_commit f pw = Returned u pw' ->
  pw' = pw
  \/ (state (self pw) = PRE_COMMIT /\ state (self pw') = COMMIT
      /\ Transaction.state (transaction pw') = COMMIT).
Proof.
  intros Hr. pose proof (with_lock_returned _ _ _ _ Hr) as Hl.
  rewrite do_commit_eq in Hr by assumption.
  destruct (decide _) as [|Hs]; [injection Hr as _ <-; left; reflexivity|].
  assert (state (self pw) = PRE_COMMIT)
    by (destruct (decide (state (self pw) = PRE_COMMIT));
        [assumption | contradiction]).
  right.
  destruct (_pending_connection (self pw));
    [destruct (commit_fails f || close_fails f); [discriminate|]|];
    injection Hr as _ <-; through_log; simpl; auto.
Qed.

Lemma abort_moves f pw u pw' :
  abort f pw = Returned u pw' ->
  state (self pw') = ABORT /\ Transaction.state (transaction pw') = ABORT.
Proof.
  intros Hr. pose proof (with_lock_returned _ _ _ _ Hr) as Hl.
  rewrite abort_eq in Hr by assumption.
  injection Hr as _ <-. through_log. simpl. auto.
Qed.

(** A returned call, read at the participant and the record it was made
    on. *)
Lemma invoke_returned c w v w' :
  invoke c w = Returned v w' ->
  exists pw',
    w' = store (target c) (subject c) pw' w
    /\ let pw := {| self := participant_at w (target c);
                    transaction := transaction_at w (subject c) |} in
       match method c with
       | CanCommit => exists x, v = Some x /\ can_commit (faults c) pw = Returned x pw'
       | PreCommit => exists x, v = Some x /\ pre_commit (faults c) pw = Returned x pw'
       | DoCommit => v = None /\ do_commit (faults c) pw = Returned tt pw'
       | Abort => v = None /\ abort (faults c) pw = Returned tt pw'
       end.
Proof.
  unfold invoke. intros Hc. apply call_returned in Hc as (pw' & Hm & ->).
  exists pw'. split; [reflexivity|]. simpl.
  destruct (method c); unfold bind, ret in Hm.
  - destruct (can_commit _ _) as [x s| |]; try discriminate.
    injection Hm as <- <-. eauto.
  - destruct (pre_commit _ _) as [x s| |]; try discriminate.
    injection Hm as <- <-. eauto.
  - destruct (do_commit _ _) as [[] s| |]; try discriminate.
    injection Hm as <- <-. eauto.
  - destruct (abort _ _) as [[] s| |]; try discriminate.
    injection Hm as <- <-. eauto.
Qed.

(** The entries of a history are the calls of the sequence, in order. *)
Lemma history_call cs :
  forall w j c v w', history cs w !! j = Some (c, v, w') -> cs !! j = Some c.
Proof.
  induction cs as [|c0 cs IH]; intros w j c v w' Hj; simpl in Hj.
  - discriminate.
  - destruct (invoke c0 w) as [v0 w0| |]; try discriminate.
    destruct j as [|j]; simpl in *; [congruence | eauto].
Qed.

End Moves.

Section Sequencing.
Context `{BackingStore}.

Lemma voted_yes_before_later e h k r t :
  voted_yes_before h k r t -> voted_yes_before (e :: h) (S k) r t.
Proof.
  intros (j & c & w & Hj & Hl & Hrest).
  exists (S j), c, w. split; [lia|]. split; [exact Hl | exact Hrest].
Qed.

(** An ACK in a history goes back to a YES of the same participant, unless
    the participant was in CAN_COMMIT before the first call. *)
Lemma ack_traces_back cs :
  forall w k r t,
    acked_at (history cs w) k r t ->
    state (participant_at w r) = CAN_COMMIT
    \/ exists t', voted_yes_before (history cs w) k r t'.
Proof.
  induction cs as [|c0 cs IH]; intros w k r t (c & wk & Hk & Hm & Hr & Ht).
  - discriminate.
  - simpl in *. destruct (invoke c0 w) as [v0 w0| |] eqn:Hinv; try discriminate.
    apply invoke_returned in Hinv as (pw' & -> & Hcall). simpl in Hcall.
    destruct k as [|k]; simpl in Hk.
    + injection Hk as -> -> _. rewrite Hm in Hcall.
      destruct Hcall as (x & [= <-] & Hcall).
      apply pre_commit_ack in Hcall as (_ & _ & Hs & _). simpl in Hs.
      left. rewrite <- Hr. exact Hs.
    + destruct (IH (store (target c0) (subject c0) pw' w) k r t)
        as [Hs|(t' & Hyes)].
      { exists c, wk. auto. }
      * destruct (decide (r = target c0)) as [->|Hne];
          [|left; rewrite store_participant_ne in Hs by assumption; exact Hs].
        rewrite store_participant_eq in Hs.
        destruct (method c0) eqn:Hm0.
        -- destruct Hcall as (x & -> & Hcall).
           apply can_commit_moves in Hcall
             as [(-> & _)|(_ & _ & [Hsame|Hab])]; simpl in *.
           ++ right. exists (subject c0), 0, c0. eexists.
              split; [lia|]. split; [reflexivity|]. auto.
           ++ left. congruence.
           ++ congruence.
        -- destruct Hcall as (x & -> & Hcall).
           apply pre_commit_moves in Hcall
             as [(_ & _ & Hpre & _)|(_ & _ & [Hsame|Hab])]; simpl in *;
             [congruence | left; congruence | congruence].
        -- destruct Hcall as (_ & Hcall).
           apply do_commit_moves in Hcall as [->|(_ & Hc & _)]; simpl in *;
             [left; exact Hs | congruence].
        -- destruct Hcall as (_ & Hcall).
           apply abort_moves in Hcall as [Hab _]. congruence.
      * right. exists t'. apply voted_yes_before_later. exact Hyes.
Qed.

(** C5 (as amended).  For a participant as constructed (local state
    INIT), in every sequence of calls an ACK of [pre_commit] comes after a
    YES of [can_commit] by that participant, for some transaction; and
    [pre_commit] called in a local state other than CAN_COMMIT returns NO
    and changes nothing. *)
Theorem pre_commit_needs_earlier_yes (cs : list Call) (w : World) (r : nat) :
  state (participant_at w r) = INIT ->
  (forall k t,
      acked_at (history cs w) k r t ->
      exists t', voted_yes_before (history cs w) k r t')
  /\ (forall f pw,
        lock (self pw) = false ->
        state (self pw) <> CAN_COMMIT ->
        pre_commit f pw = Returned NO pw).
Proof.
  intros Hinit. split.
  - intros k t Hack. destruct (ack_traces_back _ _ _ _ _ Hack) as [Hs|Hyes];
      [congruence | exact Hyes].
  - intros f pw Hl Hs. rewrite pre_commit_eq by assumption.
    destruct (decide _); [reflexivity | contradiction].
Qed.


End Sequencing.

(** * Further properties of the engine *)

(** ** Validation of statements *)

Lemma lstrip_nil_iff (l : list ascii) :
  lstrip l = [] <-> forallb isspace l = true.
Proof.
  induction l as [|c l IH]; simpl; [tauto|].
  destruct (isspace c); simpl; [exact IH|]. split; discriminate.
Qed.

Lemma lstrip_all_space_nil (l : list ascii) :
  forallb isspace (lstrip l) = true -> lstrip l = [].
Proof.
  induction l as [|c l IH]; simpl; [reflexivity|].
  destruct (isspace c) eqn:Hc; [exact IH|].
  simpl. rewrite Hc. discriminate.
Qed.

Lemma forallb_rev {A} (f : A -> bool) (l : list A) :
  forallb f (rev l) = forallb f l.
Proof.
  induction l as [|x l IH]; simpl; [reflexivity|].
  rewrite forallb_app, IH. simpl. rewrite andb_true_r. apply andb_comm.
Qed.

Lemma rstrip_nil_iff (l : list ascii) :
  rstrip l = [] <-> forallb isspace l = true.
Proof.
  unfold rstrip. rewrite <- (forallb_rev isspace l), <- lstrip_nil_iff.
  split; intros Hr.
  - apply (f_equal (@rev ascii)) in Hr. rewrite rev_involutive in Hr. exact Hr.
  - rewrite Hr. reflexivity.
Qed.

Lemma strip_blank_iff (q : string) :
  truthy (strip q) = false <-> forallb isspace (list_ascii_of_string q) = true.
Proof.
  unfold strip.
  assert (Ht : forall l, truthy (string_of_list_ascii l) = false <-> l = [])
    by (intros [|c l]; simpl; split; congruence).
  rewrite Ht, rstrip_nil_iff. split.
  - intros Hs. apply lstrip_nil_iff, lstrip_all_space_nil, Hs.
  - intros Hs. apply lstrip_nil_iff in Hs. rewrite Hs. reflexivity.
Qed.

(** X1.  The validation loop of [can_commit] rejects a list of statements
    exactly when one of them consists of whitespace only (the empty
    statement included); what the statements say is not looked at. *)
Theorem has_blank_query_iff (qs : list string) :
  has_blank_query qs = true
  <-> Exists (fun q => forallb isspace (list_ascii_of_string q) = true) qs.
Proof.
  induction qs as [|q qs IH]; simpl.
  - split; [discriminate | intros Hex; inversion Hex].
  - rewrite Exists_cons, <- IH, <- strip_blank_iff.
    destruct (truthy (strip q)); simpl; intuition congruence.
Qed.

(** ** The participant, method by method *)

Section ParticipantExtras.
Context `{BackingStore}.

Lemma insert_or_replace_self (w : PWorld) :
  state (self (insert_or_replace w)) = state (self w)
  /\ lock (self (insert_or_replace w)) = lock (self w)
  /\ _pending_connection (self (insert_or_replace w)) = _pending_connection (self w)
  /\ tables (database (self (insert_or_replace w))) = tables (database (self w))
  /\ transaction (insert_or_replace w) = transaction w.
Proof. simpl. auto. Qed.

Lemma logged_log f w k :
  transaction_log (database (self (logged f w))) !! k
  = if log_fails f then transaction_log (database (self w)) !! k
    else if decide (Transaction.transaction_id (transaction w) = k)
         then Some (log_row (transaction w))
         else transaction_log (database (self w)) !! k.
Proof.
  unfold logged. destruct (log_fails f); [reflexivity|]. simpl.
  apply lookup_insert.
Qed.



(** X4.  The vote of [can_commit] depends on the statements and on the
    faults of the call only: two participants in whatever local states, with
    whatever data, give the same vote on transactions with the same
    statements, and that vote is YES exactly when [connect] and [close]
    succeed and no statement is blank. *)
Theorem can_commit_vote_ignores_participant (f : Faults) (w1 w2 : PWorld) :
  lock (self w1) = false ->
  lock (self w2) = false ->
  Transaction.sql_queries (transaction w1) = Transaction.sql_queries (transaction w2) ->
  exists v w1' w2',
    can_commit f w1 = Returned v w1'
    /\ can_commit f w2 = Returned v w2'
    /\ (v = YES
        <-> connect_fails f = false /\ close_fails f = false
            /\ has_blank_query (Transaction.sql_queries (transaction w1)) = false)
    /\ (v = YES \/ v = NO).
Proof.
  intros Hl1 Hl2 Hq. rewrite !can_commit_eq by assumption. rewrite <- Hq.
  destruct (connect_fails f), (close_fails f); simpl;
    try (do 3 eexists; split; [reflexivity|]; split; [reflexivity|];
         split; [split; [discriminate | intros (? & ? & ?); discriminate] | auto]).
  destruct (has_blank_query _);
    do 3 eexists; (split; [reflexivity|]); (split; [reflexivity|]);
    (split; [split; [try discriminate; auto | intros (? & ? & ?); try discriminate; auto] | auto]).
Qed.




(** X7.  [do_commit] is idempotent: once it has returned, a further call,
    whatever its faults, returns and changes nothing; in particular a pending
    write is finalized once. *)
Theorem do_commit_twice (f1 f2 : Faults) (w w1 : PWorld) :
  do_commit f1 w = Returned tt w1 ->
  do_commit f2 w1 = Returned tt w1.
Proof.
  intros Hr. pose proof (with_lock_returned _ _ _ _ Hr) as Hl.
  rewrite do_commit_eq in Hr by assumption.
  destruct (decide (state (self w) <> PRE_COMMIT)) as [Hne|_].
  - injection Hr as <-. rewrite do_commit_eq by assumption.
    destruct (decide _); [reflexivity | contradiction].
  - assert (Hc : state (self w1) = COMMIT /\ lock (self w1) = false).
    { destruct (_pending_connection (self w));
        [destruct (commit_fails f1 || close_fails f1); [discriminate|]|];
        injection Hr as <-; through_log; simpl; auto. }
    destruct Hc as [Hc Hl1]. rewrite do_commit_eq by assumption.
    rewrite Hc. destruct (decide _) as [|Hn];
      [reflexivity | exfalso; apply Hn; discriminate].
Qed.

(** X8.  [abort] is safe in every local state and whatever raises: it
    returns, the local state and the state of the transaction are ABORT, no
    write is pending, and the committed tables are those found at the call
    (a write finalized earlier is not undone).  Identity, path, lock,
    statements and identifier are untouched. *)
Theorem abort_from_any_state (f : Faults) (w : PWorld) :
  lock (self w) = false ->
  exists w',
    abort f w = Returned tt w'
    /\ state (self w') = ABORT
    /\ Transaction.state (transaction w') = ABORT
    /\ _pending_connection (self w') = None
    /\ tables (database (self w')) = tables (database (self w))
    /\ lock (self w') = false
    /\ participant_id (self w') = participant_id (self w)
    /\ db_path (self w') = db_path (self w)
    /\ same_statements (transaction w) (transaction w').
Proof.
  intros Hl. eexists. split; [apply abort_eq; assumption|].
  assert (Hid : forall x : PWorld,
             participant_id (self (logged f x)) = participant_id (self x)
             /\ db_path (self (logged f x)) = db_path (self x))
    by (intros x; unfold logged; destruct (log_fails f); simpl; auto).
  destruct (Hid (set_transaction_state ABORT
                   (set_state ABORT (set_pending None w)))) as [-> ->].
  through_log. simpl. unfold same_statements. simpl. auto 10.
Qed.

(** X9.  A second [abort] adds at most a log write, and nothing at all once
    the first one has written the log: calling [abort] again and again
    leaves the participant and the transaction as the first call left
    them. *)
Theorem abort_twice (f1 f2 : Faults) (w w1 : PWorld) :
  abort f1 w = Returned tt w1 ->
  abort f2 w1 = Returned tt (logged f2 w1)
  /\ (log_fails f1 = false -> abort f2 w1 = Returned tt w1).
Proof.
  intros Hr. pose proof (with_lock_returned _ _ _ _ Hr) as Hl.
  rewrite abort_eq in Hr by assumption. injection Hr as <-.
  assert (Hfix : forall x : PWorld,
             lock (self x) = false -> state (self x) = ABORT ->
             Transaction.state (transaction x) = ABORT ->
             _pending_connection (self x) = None ->
             set_transaction_state ABORT (set_state ABORT (set_pending None x)) = x).
  { intros [[] []]; simpl; intros; subst; reflexivity. }
  set (w0 := set_transaction_state ABORT (set_state ABORT (set_pending None w))).
  assert (Hw1 : set_transaction_state ABORT
                  (set_state ABORT (set_pending None (logged f1 w0)))
                = logged f1 w0).
  { apply Hfix; through_log; subst w0; simpl; auto. }
  rewrite abort_eq by (through_log; subst w0; simpl; auto).
  rewrite Hw1. split; [reflexivity|].
  intros Hf1. f_equal. unfold logged. rewrite Hf1.
  destruct (log_fails f2); [reflexivity|].
  unfold insert_or_replace at 1. simpl.
  destruct w as [[] []]; subst w0; simpl in *. unfold set_database; simpl.
  rewrite insert_insert_eq. reflexivity.
Qed.

End ParticipantExtras.

(** ** A participant from construction to commit *)

Section Lifecycle.
Context `{BackingStore}.

(** X10.  A participant as constructed enforces the order of the phases:
    [pre_commit] answers NO and [do_commit] returns, both without changing
    anything, until [can_commit] has answered YES; and after that YES
    [do_commit] still changes nothing until [pre_commit] has run. *)
Theorem new_participant_enforces_order (f0 f f1 : Faults) (name path : string)
    (file : Database) (p : Participant) (tx : Transaction) :
  Participant__init__ f0 name path file = Some p ->
  pre_commit f {| self := p; transaction := tx |}
  = Returned NO {| self := p; transaction := tx |}
  /\ do_commit f {| self := p; transaction := tx |}
     = Returned tt {| self := p; transaction := tx |}
  /\ forall w1,
       can_commit f1 {| self := p; transaction := tx |} = Returned YES w1 ->
       do_commit f w1 = Returned tt w1.
Proof.
  unfold Participant__init__. destruct (_init_database f0 file); [|discriminate].
  intros [= <-]. split; [|split].
  - rewrite pre_commit_eq by reflexivity. reflexivity.
  - rewrite do_commit_eq by reflexivity. reflexivity.
  - intros w1 Hr. rewrite can_commit_eq in Hr by reflexivity.
    destruct (connect_fails f1 || close_fails f1); [discriminate|].
    destruct (has_blank_query _); [discriminate|].
    injection Hr as <-.
    rewrite do_commit_eq by (through_log; reflexivity).
    through_log. simpl. reflexivity.
Qed.

(** X11.  A participant as constructed, taken through the three phases with
    valid statements that all execute and no fault in [connect], [close],
    [BEGIN] or [commit]: it votes YES, acknowledges, and ends in COMMIT with
    no pending write; its tables are the ones found at construction with the
    statements applied in order, the transaction is in COMMIT, and so is its
    log row when the last log write succeeds. *)
Theorem new_participant_three_phases (f0 f1 f2 f3 : Faults) (name path : string)
    (file : Database) (p : Participant) (tx : Transaction) (d : Data) :
  Participant__init__ f0 name path file = Some p ->
  has_blank_query (Transaction.sql_queries tx) = false ->
  connect_fails f1 || close_fails f1 = false ->
  connect_fails f2 || begin_fails f2 = false ->
  execute_all (Transaction.sql_queries tx) (tables file) = Some d ->
  finalizes f3 ->
  exists w1 w2 w3,
    can_commit f1 {| self := p; transaction := tx |} = Returned YES w1
    /\ pre_commit f2 w1 = Returned ACK w2
    /\ do_commit f3 w2 = Returned tt w3
    /\ state (self w3) = COMMIT
    /\ _pending_connection (self w3) = None
    /\ tables (database (self w3)) = d
    /\ Transaction.state (transaction w3) = COMMIT
    /\ (log_fails f3 = false ->
        logged_row (self w3) tx
        = Some {| row_state := COMMIT;
                  row_timestamp := Transaction.timestamp tx;
                  row_queries := Transaction.sql_queries tx |}).
Proof.
  unfold Participant__init__. destruct (_init_database f0 file) as [d0|] eqn:Hinit;
    [|discriminate].
  assert (d0 = file) as ->.
  { unfold _init_database in Hinit.
    destruct (connect_fails f0 || commit_fails f0 || close_fails f0); congruence. }
  intros [= <-] Hvalid Hf1 Hf2 Hex [Hc3 Hx3].
  set (p0 := {| participant_id := name; db_path := path; state := INIT;
                lock := false; _pending_connection := None; database := file |}).
  set (w0 := {| self := p0; transaction := tx |}).
  set (w1 := logged f1 (set_transaction_state CAN_COMMIT (set_state CAN_COMMIT w0))).
  destruct (logged_self f1 (set_transaction_state CAN_COMMIT (set_state CAN_COMMIT w0)))
    as (Hs1 & Hl1 & Hp1 & Ht1 & Hx1).
  fold w1 in Hs1, Hl1, Hp1, Ht1, Hx1. simpl in Hs1, Hl1, Hp1, Ht1, Hx1.
  set (w2 := set_transaction_state PRE_COMMIT
               (set_state PRE_COMMIT (set_pending (Some d) w1))).
  set (w3 := logged f3
               (set_transaction_state COMMIT
                  (set_state COMMIT
                     (set_pending None
                        (set_database
                           {| tables := d;
                              transaction_log := transaction_log (database (self w2)) |}
                           w2))))).
  exists w1, w2, w3.
  split.
  { rewrite can_commit_eq by reflexivity. simpl. rewrite Hf1, Hvalid. reflexivity. }
  split.
  { rewrite pre_commit_eq by exact Hl1. rewrite Hs1, Hx1, Ht1. simpl.
    rewrite Hf2, Hex. reflexivity. }
  split.
  { rewrite do_commit_eq by (simpl; exact Hl1). simpl. rewrite Hc3, Hx3. reflexivity. }
  unfold w3. through_log. simpl. repeat split.
  intros Hlog. unfold logged_row. rewrite logged_log, Hlog. simpl.
  rewrite Hx1. simpl.
  destruct (decide _) as [_|Hn]; [|contradiction].
  destruct tx; reflexivity.
Qed.

End Lifecycle.

(** ** The coordinator *)

Section CoordinatorExtras.
Context `{BackingStore}.

Lemma can_commit_not_raised f w w' : can_commit f w <> Raised w'.
Proof.
  destruct (lock (self w)) eqn:Hl.
  - unfold can_commit, with_lock. rewrite Hl. discriminate.
  - apply methods_never_raise; assumption.
Qed.

Lemma pre_commit_not_raised f w w' : pre_commit f w <> Raised w'.
Proof.
  destruct (lock (self w)) eqn:Hl.
  - unfold pre_commit, with_lock. rewrite Hl. discriminate.
  - apply methods_never_raise; assumption.
Qed.

Lemma do_commit_not_raised f w w' : do_commit f w <> Raised w'.
Proof.
  destruct (lock (self w)) eqn:Hl.
  - unfold do_commit, with_lock. rewrite Hl. discriminate.
  - apply methods_never_raise; assumption.
Qed.

Lemma guarded_abort_not_raised f w w' : try_except (abort f) (ret tt) w <> Raised w'.
Proof.
  rewrite abort_guarded_eq. destruct (lock (self w)) eqn:Hl.
  - unfold abort, with_lock. rewrite Hl. discriminate.
  - apply methods_never_raise; assumption.
Qed.

Lemma for_each_not_raised {A} (m : Faults -> M PWorld A) fs t :
  (forall f pw pw', m f pw <> Raised pw') ->
  forall roster i w w', for_each m fs t i roster w <> Raised w'.
Proof.
  intros Hm. induction roster as [|r roster IH]; intros i w w'; simpl.
  - discriminate.
  - unfold bind at 1. unfold call.
    destruct (m (fs i) _) as [x pw|pw|] eqn:Hc; [|exfalso; eapply Hm; eauto|discriminate].
    unfold bind.
    destruct (for_each m fs t (S i) roster _) as [xs w2|w2|] eqn:Hr;
      [discriminate | exfalso; eapply IH; eauto | discriminate].
Qed.

Lemma _abort_all_not_raised c o t w w' : _abort_all c o t w <> Raised w'.
Proof.
  unfold _abort_all, bind.
  destruct (for_each _ _ _ _ _ _) as [xs w2|w2|] eqn:Hr;
    [discriminate | | discriminate].
  exfalso. eapply (for_each_not_raised _ _ _ guarded_abort_not_raised); eauto.
Qed.

Lemma _abort_all_returned c o t w u w' :
  _abort_all c o t w = Returned u w' ->
  exists xs,
    for_each (fun f => try_except (abort f) (ret tt)) (at_abort o) t 0
      (participants c) w = Returned xs w'.
Proof.
  unfold _abort_all, bind.
  destruct (for_each _ _ _ _ _ _) as [xs w2|w2|]; try discriminate.
  intros [= _ <-]. eauto.
Qed.

(** The paths by which [execute_transaction] returns. *)
Lemma execute_transaction_returned c o t w b w' :
  execute_transaction c o t w = Returned b w' ->
  exists votes w1,
    for_each can_commit (at_can_commit o) t 0 (participants c) w = Returned votes w1
    /\ ((NO ∈ votes /\ b = false /\ _abort_all c o t w1 = Returned tt w')
        \/ ((NO ∉ votes)
            /\ exists acks w2,
                 for_each pre_commit (at_pre_commit o) t 0 (participants c) w1
                 = Returned acks w2
                 /\ ((((ACK ∉ acks) \/ (NO ∈ acks)) /\ b = false
                      /\ _abort_all c o t w2 = Returned tt w')
                     \/ ((ACK ∈ acks) /\ (NO ∉ acks) /\ b = true
                         /\ exists us,
                              for_each do_commit (at_do_commit o) t 0
                                (participants c) w2 = Returned us w')))).
Proof.
  unfold execute_transaction, try_except. unfold bind at 1. intros Hrun.
  destruct (for_each can_commit _ _ _ _ _) as [votes w1|w1|] eqn:Hp1;
    [|exfalso; eapply (for_each_not_raised _ _ _ can_commit_not_raised); eauto
     |discriminate].
  exists votes, w1. split; [reflexivity|].
  destruct (bool_decide (NO ∈ votes)) eqn:Hno.
  - apply bool_decide_eq_true_1 in Hno. left. unfold bind, ret in Hrun.
    destruct (_abort_all c o t w1) as [[] w2|w2|] eqn:Hab;
      [|exfalso; eapply _abort_all_not_raised; eauto | discriminate].
    injection Hrun as <- <-. auto.
  - apply bool_decide_eq_false_1 in Hno. right. split; [exact Hno|].
    unfold bind at 1 in Hrun.
    destruct (for_each pre_commit _ _ _ _ _) as [acks w2|w2|] eqn:Hp2;
      [|exfalso; eapply (for_each_not_raised _ _ _ pre_commit_not_raised); eauto
       |discriminate].
    exists acks, w2. split; [reflexivity|].
    destruct (bool_decide (ACK ∉ acks) || bool_decide (NO ∈ acks)) eqn:Hbad.
    + left. unfold bind, ret in Hrun.
      destruct (_abort_all c o t w2) as [[] w3|w3|] eqn:Hab;
        [|exfalso; eapply _abort_all_not_raised; eauto | discriminate].
      injection Hrun as <- <-. split; [|auto].
      apply orb_true_iff in Hbad as [Hb|Hb]; apply bool_decide_eq_true_1 in Hb; auto.
    + right. apply orb_false_iff in Hbad as [Hb1 Hb2].
      apply bool_decide_eq_false_1 in Hb1, Hb2.
      unfold bind, ret in Hrun.
      destruct (for_each do_commit _ _ _ _ _) as [us w3|w3|] eqn:Hp3;
        [|exfalso; eapply (for_each_not_raised _ _ _ do_commit_not_raised); eauto
         |discriminate].
      injection Hrun as <- <-.
      split; [destruct (decide (ACK ∈ acks)); [assumption | contradiction]|].
      split; [exact Hb2|]. split; [reflexivity|]. eauto.
Qed.

End CoordinatorExtras.

Section RunOutcome.
Context `{BackingStore}.

Lemma for_each_results {A} (m : Faults -> M PWorld A) fs t (P : A -> Prop) :
  (forall f pw x pw', m f pw = Returned x pw' -> P x) ->
  forall roster i w xs w',
    for_each m fs t i roster w = Returned xs w' -> Forall P xs.
Proof.
  intros Hm. induction roster as [|r roster IH]; intros i w xs w' Hrun.
  - simpl in Hrun. injection Hrun as <- _. constructor.
  - apply for_each_cons_returned in Hrun as (x & pw & ys & Hcall & Hrest & ->).
    constructor; eauto.
Qed.

Lemma pre_commit_answers f pw v pw' :
  pre_commit f pw = Returned v pw' -> v = ACK \/ v = NO.
Proof. intros Hr. apply pre_commit_moves in Hr as [(-> & _)|(-> & _)]; auto. Qed.

(** A loop that returned, each of whose calls takes [J] or [Q] to [Q]. *)
Lemma for_each_returned_establishes {A} (m : Faults -> M PWorld A) fs t
    (J Q : nat -> Participant -> Prop) :
  (forall f r p tx x pw',
      J r p \/ Q r p ->
      m f {| self := p; transaction := tx |} = Returned x pw' ->
      Q r (self pw')) ->
  forall roster i w xs w',
    for_each m fs t i roster w = Returned xs w' ->
    (forall r, r ∈ roster -> J r (participant_at w r) \/ Q r (participant_at w r)) ->
    forall r, r ∈ roster -> Q r (participant_at w' r).
Proof.
  intros Hm. induction roster as [|r roster IH]; intros i w xs w' Hrun Hpre a Ha.
  - inversion Ha.
  - apply for_each_cons_returned in Hrun as (x & pw & ys & Hcall & Hrest & ->).
    pose proof (Hm _ r _ _ _ _ (Hpre r ltac:(left)) Hcall) as HQ.
    destruct (decide (a ∈ roster)) as [Hin|Hout].
    + eapply IH; [exact Hrest | | exact Hin].
      intros b Hb. destruct (decide (b = r)) as [->|Hne].
      * rewrite store_participant_eq. right. exact HQ.
      * rewrite store_participant_ne by assumption. apply Hpre. right. exact Hb.
    + apply elem_of_cons in Ha as [->|Ha]; [|contradiction].
      rewrite (for_each_frame _ _ _ _ _ _ _ _ Hrest) by assumption.
      rewrite store_participant_eq. exact HQ.
Qed.

Lemma do_commit_returned_commits f p tx u pw' conn :
  (state p = PRE_COMMIT /\ _pending_connection p = Some conn /\ lock p = false)
  \/ (state p = COMMIT /\ _pending_connection p = None /\ lock p = false
      /\ tables (database p) = conn) ->
  do_commit f {| self := p; transaction := tx |} = Returned u pw' ->
  state (self pw') = COMMIT /\ _pending_connection (self pw') = None
  /\ lock (self pw') = false /\ tables (database (self pw')) = conn.
Proof.
  intros Hpre Hr. pose proof (with_lock_returned _ _ _ _ Hr) as Hl.
  rewrite do_commit_eq in Hr by assumption. simpl in Hr.
  destruct Hpre as [(Hs & Hp & _)|(Hs & Hp & _ & Ht)]; rewrite Hs in Hr; simpl in Hr.
  - rewrite Hp in Hr.
    destruct (commit_fails f || close_fails f); [discriminate|].
    injection Hr as _ <-. through_log. simpl. auto.
  - injection Hr as _ <-. simpl. auto.
Qed.

Lemma all_answers_ack (acks : list Vote) :
  Forall (fun v => v = ACK \/ v = NO) acks -> NO ∉ acks -> Forall (eq ACK) acks.
Proof.
  intros Hall Hno. rewrite Forall_forall in *. intros v Hv.
  destruct (Hall v Hv) as [->| ->]; [reflexivity | contradiction].
Qed.

(** X12.  The result [True] is sound: whenever [execute_transaction]
    returns true, the roster is not empty and every participant of it is in
    COMMIT with no pending write, its tables being the ones it had before
    the run with the statements of the transaction applied in order. *)
Theorem true_means_committed_everywhere (c : Coordinator) (o : Oracle) (t : nat)
    (w w' : World) :
  execute_transaction c o t w = Returned true w' ->
  participants c <> []
  /\ forall r, r ∈ participants c ->
       state (participant_at w' r) = COMMIT
       /\ _pending_connection (participant_at w' r) = None
       /\ execute_all (Transaction.sql_queries (transaction_at w t))
            (tables (database (participant_at w r)))
          = Some (tables (database (participant_at w' r))).
Proof.
  intros Hrun.
  apply execute_transaction_returned in Hrun
    as (votes & w1 & Hp1 & [(_ & Hb & _)|(_ & acks & w2 & Hp2 & Hcase)]);
    [discriminate|].
  destruct Hcase as [(_ & Hb & _)|(Hin & Hno & _ & us & Hp3)]; [discriminate|].
  destruct (phase_frame _ _ _ _ _ _ _ _ can_commit_frame Hp1)
    as (Hsame1 & [Hqs1 _] & _).
  destruct (phase_frame _ _ _ _ _ _ _ _ pre_commit_frame Hp2) as (_ & _ & Hlen).
  pose proof (for_each_results _ _ _ _ pre_commit_answers _ _ _ _ _ Hp2) as Hans.
  pose proof (all_ack_prepared _ _ _ _ _ _ _ Hp2 (all_answers_ack _ Hans Hno))
    as Hprep.
  split.
  - intros Hempty. rewrite Hempty in Hlen. destruct acks; [inversion Hin | discriminate].
  - intros r Hr.
    pose proof (for_each_returned_establishes do_commit (at_do_commit o) t
                  (fun r p =>
                     exists conn,
                       execute_all (Transaction.sql_queries (transaction_at w t))
                         (tables (database (participant_at w r))) = Some conn
                       /\ state p = PRE_COMMIT /\ _pending_connection p = Some conn
                       /\ lock p = false)
                  (fun r p =>
                     exists conn,
                       execute_all (Transaction.sql_queries (transaction_at w t))
                         (tables (database (participant_at w r))) = Some conn
                       /\ state p = COMMIT /\ _pending_connection p = None
                       /\ lock p = false /\ tables (database p) = conn)) as Hloop.
    destruct (Hloop) with (roster := participants c) (i := 0) (w := w2)
                          (xs := us) (w' := w') (r := r)
      as (conn & Hex & Hs & Hp & _ & Ht); auto.
    + intros f a p tx x pw' [(conn & Hex & Hpre)|(conn & Hex & Hpost)] Hcall;
        exists conn; (split; [exact Hex|]);
        eapply do_commit_returned_commits; eauto.
    + intros a Ha. left. destruct (Hprep a Ha) as (conn & Hex & Hpost).
      exists conn. split; [|exact Hpost].
      rewrite <- Hqs1. destruct (Hsame1 a) as [_ <-]. exact Hex.
    + repeat split; [exact Hs | exact Hp | congruence].
Qed.

(** [_abort_all] reached from the heap [wi] that the voting phases left. *)
Lemma abort_path_outcome c o t (w wi w' : World) :
  (forall a, same_lock_and_tables (participant_at w a) (participant_at wi a)) ->
  (forall r, r ∈ participants c -> lock (participant_at wi r) = false) ->
  _abort_all c o t wi = Returned tt w' ->
  forall r, r ∈ participants c ->
    state (participant_at w' r) = ABORT
    /\ _pending_connection (participant_at w' r) = None
    /\ tables (database (participant_at w' r))
       = tables (database (participant_at w r)).
Proof.
  intros Hsame Hfree Hab r Hr.
  destruct (_abort_all_aborts c o t wi Hfree) as (w'' & Hab' & Hend).
  rewrite Hab in Hab'. injection Hab' as <-.
  destruct (Hend r Hr) as (? & ? & _ & Ht). destruct (Hsame r) as [_ Ht1].
  repeat split; congruence.
Qed.



(** X14.  No exception leaves [execute_transaction]: whatever the heap, the
    roster and the faults, the handler [except Exception] of the coordinator
    is never entered and the call does not raise. *)
Theorem execute_transaction_never_raises (c : Coordinator) (o : Oracle) (t : nat)
    (w w' : World) :
  execute_transaction c o t w <> Raised w'
  /\ for_each can_commit (at_can_commit o) t 0 (participants c) w <> Raised w'
  /\ for_each pre_commit (at_pre_commit o) t 0 (participants c) w <> Raised w'
  /\ for_each do_commit (at_do_commit o) t 0 (participants c) w <> Raised w'
  /\ _abort_all c o t w <> Raised w'.
Proof.
  split; [|repeat split;
           first [ apply _abort_all_not_raised
                 | apply for_each_not_raised;
                   first [ exact can_commit_not_raised | exact pre_commit_not_raised
                         | exact do_commit_not_raised ] ]].
  unfold execute_transaction, try_except. unfold bind at 1.
  destruct (for_each can_commit _ _ _ _ _) as [votes w1|w1|] eqn:Hp1;
    [|exfalso; eapply (for_each_not_raised _ _ _ can_commit_not_raised); eauto
     |discriminate].
  destruct (bool_decide (NO ∈ votes)).
  - unfold bind, ret.
    destruct (_abort_all c o t w1) as [[] w2|w2|] eqn:Hab;
      [discriminate | exfalso; eapply _abort_all_not_raised; eauto | discriminate].
  - unfold bind at 1.
    destruct (for_each pre_commit _ _ _ _ _) as [acks w2|w2|] eqn:Hp2;
      [|exfalso; eapply (for_each_not_raised _ _ _ pre_commit_not_raised); eauto
       |discriminate].
    destruct (bool_decide (ACK ∉ acks) || bool_decide (NO ∈ acks)); unfold bind, ret.
    + destruct (_abort_all c o t w2) as [[] w3|w3|] eqn:Hab;
        [discriminate | exfalso; eapply _abort_all_not_raised; eauto | discriminate].
    + destruct (for_each do_commit _ _ _ _ _) as [us w3|w3|] eqn:Hp3;
        [discriminate
        |exfalso; eapply (for_each_not_raised _ _ _ do_commit_not_raised); eauto
        |discriminate].
Qed.

End RunOutcome.

Section RunCases.
Context `{BackingStore}.

(** From a roster whose locks are free, the run either returns false with
    everything rolled back, or reaches phase 3 after unanimous answers. *)
Lemma run_cases (c : Coordinator) (o : Oracle) (t : nat) (w : World) :
  (forall r, r ∈ participants c -> lock (participant_at w r) = false) ->
  (exists w',
      execute_transaction c o t w = Returned false w'
      /\ forall r, r ∈ participants c ->
           state (participant_at w' r) = ABORT
           /\ _pending_connection (participant_at w' r) = None
           /\ tables (database (participant_at w' r))
              = tables (database (participant_at w r)))
  \/ (exists votes w1 acks w2,
        for_each can_commit (at_can_commit o) t 0 (participants c) w
        = Returned votes w1
        /\ (NO ∉ votes)
        /\ for_each pre_commit (at_pre_commit o) t 0 (participants c) w1
           = Returned acks w2
        /\ Forall (eq ACK) acks
        /\ participants c <> []
        /\ forall us w3,
             for_each do_commit (at_do_commit o) t 0 (participants c) w2
             = Returned us w3 ->
             execute_transaction c o t w = Returned true w3).
Proof.
  intros Hfree.
  destruct (phase1_returns (at_can_commit o) t _ w Hfree) as (votes & w1 & Hp1).
  destruct (phase_frame _ _ _ _ _ _ _ _ can_commit_frame Hp1) as (Hsame1 & _ & _).
  assert (Hfree1 : forall r, r ∈ participants c -> lock (participant_at w1 r) = false).
  { intros r Hr. destruct (Hsame1 r) as [-> _]. auto. }
  destruct (decide (NO ∈ votes)) as [Hno|Hyes].
  { left. destruct (_abort_all_aborts c o t w1 Hfree1) as (w' & Hab & _).
    exists w'. split.
    - unfold execute_transaction, try_except. unfold bind at 1. rewrite Hp1.
      rewrite bool_decide_eq_true_2 by assumption.
      unfold bind. rewrite Hab. reflexivity.
    - eapply abort_path_outcome; eauto. }
  destruct (phase2_returns (at_pre_commit o) t _ w1 Hfree1) as (acks & w2 & Hp2).
  destruct (phase_frame _ _ _ _ _ _ _ _ pre_commit_frame Hp2) as (Hsame2 & _ & Hlen).
  assert (Hfree2 : forall r, r ∈ participants c -> lock (participant_at w2 r) = false).
  { intros r Hr. destruct (Hsame2 r) as [-> _]. auto. }
  assert (Hstart : forall X : M World bool,
             try_except
               (let* votes := for_each can_commit (at_can_commit o) t 0 (participants c) in
                if bool_decide (NO ∈ votes) then
                  let* _ := _abort_all c o t in ret false
                else
                  let* acks := for_each pre_commit (at_pre_commit o) t 0 (participants c) in
                  if bool_decide (ACK ∉ acks) || bool_decide (NO ∈ acks) then
                    let* _ := _abort_all c o t in ret false
                  else
                    let* _ := for_each do_commit (at_do_commit o) t 0 (participants c) in
                    ret true) X w
             = try_except
                 (if bool_decide (ACK ∉ acks) || bool_decide (NO ∈ acks) then
                    let* _ := _abort_all c o t in ret false
                  else
                    let* _ := for_each do_commit (at_do_commit o) t 0 (participants c) in
                    ret true) X w2).
  { intros X. unfold try_except. unfold bind at 1. rewrite Hp1.
    rewrite bool_decide_eq_false_2 by assumption.
    unfold bind at 1. rewrite Hp2. reflexivity. }
  unfold execute_transaction. rewrite Hstart. clear Hstart.
  destruct (decide (ACK ∉ acks \/ NO ∈ acks)) as [Hbad|Hgood].
  { left. destruct (_abort_all_aborts c o t w2 Hfree2) as (w' & Hab & _).
    exists w'. split.
    - assert (Hb : bool_decide (ACK ∉ acks) || bool_decide (NO ∈ acks) = true).
      { apply orb_true_iff.
        destruct Hbad; [left | right]; apply bool_decide_eq_true_2; assumption. }
      rewrite Hb. unfold try_except, bind. rewrite Hab. reflexivity.
    - eapply abort_path_outcome; [ | exact Hfree2 | exact Hab].
      intros a. eapply same_lock_and_tables_trans; [apply Hsame1 | apply Hsame2]. }
  right. exists votes, w1, acks, w2.
  assert (Hin : ACK ∈ acks)
    by (destruct (decide (ACK ∈ acks)); [assumption | exfalso; auto]).
  assert (Hno : NO ∉ acks) by auto.
  split; [exact Hp1|]. split; [exact Hyes|]. split; [exact Hp2|].
  split.
  { apply all_answers_ack; [|exact Hno].
    exact (for_each_results _ _ _ _ pre_commit_answers _ _ _ _ _ Hp2). }
  split.
  { intros Hempty. rewrite Hempty in Hlen. destruct acks; [inversion Hin | discriminate]. }
  intros us w3 Hp3.
  assert (Hb : bool_decide (ACK ∉ acks) || bool_decide (NO ∈ acks) = false).
  { apply orb_false_iff. split; apply bool_decide_eq_false_2; auto. }
  rewrite Hb. unfold try_except, bind. rewrite Hp3. reflexivity.
Qed.

(** X15.  [execute_transaction] returns whenever no participant of the
    roster has its lock held and no fault hits the finalization of phase 3;
    a run can only fail to return by blocking. *)
Theorem execute_transaction_returns (c : Coordinator) (o : Oracle) (t : nat)
    (w : World) :
  (forall r, r ∈ participants c -> lock (participant_at w r) = false) ->
  (forall i, i < length (participants c) -> finalizes (at_do_commit o i)) ->
  exists b w', execute_transaction c o t w = Returned b w'.
Proof.
  intros Hfree Hfin.
  destruct (run_cases c o t w Hfree)
    as [(w' & Hret & _)|(votes & w1 & acks & w2 & _ & _ & Hp2 & Hack & _ & Hthen)];
    [eauto|].
  pose proof (all_ack_prepared _ _ _ _ _ _ _ Hp2 Hack) as Hprep.
  destruct (for_each_establishes do_commit (at_do_commit o) t finalizes
              (fun _ p => exists conn,
                 state p = PRE_COMMIT /\ _pending_connection p = Some conn
                 /\ lock p = false)
              (fun _ p => state p = COMMIT /\ _pending_connection p = None
                          /\ lock p = false))
    with (roster := participants c) (i := 0) (w := w2) as (us & w3 & Hp3 & _).
  - intros f r p tx Hf [(conn & Hpre)|(Hs & Hp & Hl)].
    + destruct (do_commit_finalizes f p tx conn Hf) as (u & pw' & Hr & ? & ? & ? & _);
        [left; exact Hpre | eauto 10].
    + destruct (do_commit_finalizes f p tx (tables (database p)) Hf)
        as (u & pw' & Hr & ? & ? & ? & _); [right; auto | eauto 10].
  - intros j Hj. apply Hfin. lia.
  - intros r Hr. left. destruct (Hprep r Hr) as (conn & _ & Hpost). eauto.
  - exists true, w3. eapply Hthen. exact Hp3.
Qed.





Lemma phase1_blank_votes fs t :
  forall roster i w votes w',
    has_blank_query (Transaction.sql_queries (transaction_at w t)) = true ->
    for_each can_commit fs t i roster w = Returned votes w' ->
    Forall (eq NO) votes.
Proof.
  induction roster as [|r roster IH]; intros i w votes w' Hblank Hrun.
  - simpl in Hrun. injection Hrun as <- _. constructor.
  - apply for_each_cons_returned in Hrun as (x & pw & ys & Hcall & Hrest & ->).
    destruct (can_commit_frame _ _ _ _ Hcall) as [_ [Hqs _]]. simpl in Hqs.
    constructor.
    + pose proof (with_lock_returned _ _ _ _ Hcall) as Hl.
      rewrite can_commit_eq in Hcall by assumption. simpl in Hcall.
      rewrite Hblank in Hcall.
      destruct (connect_fails _ || close_fails _); congruence.
    + eapply IH; [|exact Hrest]. rewrite store_transaction_eq, Hqs. exact Hblank.
Qed.

(** X17.  A transaction with a blank statement is never committed, whatever
    the roster and the faults: the run returns false, and every participant
    is in ABORT with its tables untouched. *)
Theorem blank_statement_always_aborts (c : Coordinator) (o : Oracle) (t : nat)
    (w : World) :
  (forall r, r ∈ participants c -> lock (participant_at w r) = false) ->
  has_blank_query (Transaction.sql_queries (transaction_at w t)) = true ->
  exists w',
    execute_transaction c o t w = Returned false w'
    /\ forall r, r ∈ participants c ->
         state (participant_at w' r) = ABORT
         /\ _pending_connection (participant_at w' r) = None
         /\ tables (database (participant_at w' r))
            = tables (database (participant_at w r)).
Proof.
  intros Hfree Hblank.
  destruct (run_cases c o t w Hfree)
    as [Hfalse|(votes & w1 & acks & w2 & Hp1 & Hyes & _ & _ & Hne & _)];
    [exact Hfalse|].
  exfalso. pose proof (phase1_blank_votes _ _ _ _ _ _ _ Hblank Hp1) as Hall.
  destruct (phase_frame _ _ _ _ _ _ _ _ can_commit_frame Hp1) as (_ & _ & Hlen).
  destruct votes as [|v votes];
    [destruct (participants c); [contradiction | discriminate]|].
  apply Forall_cons in Hall as [<- _]. apply Hyes. left.
Qed.


End RunCases.

Section RunFrame.
Context `{BackingStore}.

Lemma do_commit_statements f pw u pw' :
  do_commit f pw = Returned u pw' ->
  same_statements (transaction pw) (transaction pw').
Proof.
  intros Hr. pose proof (with_lock_returned _ _ _ _ Hr) as Hl.
  rewrite do_commit_eq in Hr by assumption. unfold same_statements.
  destruct (decide _); [injection Hr as _ <-; auto|].
  destruct (_pending_connection (self pw));
    [destruct (commit_fails f || close_fails f); [discriminate|]|];
    injection Hr as _ <-; through_log; simpl; auto.
Qed.

Lemma phase_outside {A} (m : Faults -> M PWorld A) fs t roster i w xs w' :
  (forall f pw a pw',
      m f pw = Returned a pw' -> same_statements (transaction pw) (transaction pw')) ->
  for_each m fs t i roster w = Returned xs w' ->
  (forall a, a ∉ roster -> participant_at w' a = participant_at w a)
  /\ (forall t', t' <> t -> transaction_at w' t' = transaction_at w t')
  /\ same_statements (transaction_at w t) (transaction_at w' t).
Proof.
  intros Hm Hrun.
  eapply (for_each_returned m fs t (fun _ _ => True) same_statements) in Hrun;
    eauto using same_statements_refl, same_statements_trans.
  destruct Hrun as (_ & ? & ? & ? & _). auto.
Qed.

Lemma abort_path_outside c o t w u w' :
  _abort_all c o t w = Returned u w' ->
  (forall a, a ∉ participants c -> participant_at w' a = participant_at w a)
  /\ (forall t', t' <> t -> transaction_at w' t' = transaction_at w t')
  /\ same_statements (transaction_at w t) (transaction_at w' t).
Proof.
  intros Hab. apply _abort_all_returned in Hab as (xs & Hrun).
  eapply phase_outside; [|exact Hrun].
  intros f pw a pw' Hr. apply (abort_frame _ _ _ _ Hr).
Qed.

Ltac chain_frames H1 H2 :=
  destruct H1 as (Ho1 & Ht1 & Hs1); destruct H2 as (Ho2 & Ht2 & Hs2);
  split; [intros a Ha; rewrite Ho2, Ho1 by assumption; reflexivity|];
  split; [intros t' Ht'; rewrite Ht2, Ht1 by assumption; reflexivity|];
  eapply same_statements_trans; eassumption.

(** X19.  A run touches the roster and its transaction only: whenever
    [execute_transaction] returns, every participant outside the roster and
    every other transaction is exactly as before, and the transaction keeps
    its identifier and its statements. *)
Theorem run_touches_roster_only (c : Coordinator) (o : Oracle) (t : nat)
    (w w' : World) (b : bool) :
  execute_transaction c o t w = Returned b w' ->
  (forall a, a ∉ participants c -> participant_at w' a = participant_at w a)
  /\ (forall t', t' <> t -> transaction_at w' t' = transaction_at w t')
  /\ same_statements (transaction_at w t) (transaction_at w' t).
Proof.
  intros Hrun.
  apply execute_transaction_returned in Hrun
    as (votes & w1 & Hp1 & [(_ & _ & Hab)|(_ & acks & w2 & Hp2 & Hcase)]).
  - pose proof (phase_outside _ _ _ _ _ _ _ _
                  (fun f pw a pw' Hr => proj2 (can_commit_frame f pw a pw' Hr)) Hp1)
      as F1.
    pose proof (abort_path_outside _ _ _ _ _ _ Hab) as F2.
    chain_frames F1 F2.
  - pose proof (phase_outside _ _ _ _ _ _ _ _
                  (fun f pw a pw' Hr => proj2 (can_commit_frame f pw a pw' Hr)) Hp1)
      as F1.
    pose proof (phase_outside _ _ _ _ _ _ _ _
                  (fun f pw a pw' Hr => proj2 (pre_commit_frame f pw a pw' Hr)) Hp2)
      as F2.
    assert (F12 :
      (forall a, a ∉ participants c -> participant_at w2 a = participant_at w a)
      /\ (forall t', t' <> t -> transaction_at w2 t' = transaction_at w t')
      /\ same_statements (transaction_at w t) (transaction_at w2 t))
      by (chain_frames F1 F2).
    destruct Hcase as [(_ & _ & Hab)|(_ & _ & _ & us & Hp3)].
    + pose proof (abort_path_outside _ _ _ _ _ _ Hab) as F3.
      chain_frames F12 F3.
    + pose proof (phase_outside _ _ _ _ _ _ _ _ do_commit_statements Hp3) as F3.
      chain_frames F12 F3.
Qed.

Lemma for_each_every_call_sets {A} (m : Faults -> M PWorld A) fs t s :
  (forall f pw x pw',
      m f pw = Returned x pw' -> Transaction.state (transaction pw') = s) ->
  forall roster i w xs w',
    roster <> [] ->
    for_each m fs t i roster w = Returned xs w' ->
    Transaction.state (transaction_at w' t) = s.
Proof.
  intros Hm. induction roster as [|r roster IH]; intros i w xs w' Hne Hrun;
    [contradiction|].
  apply for_each_cons_returned in Hrun as (x & pw & ys & Hcall & Hrest & ->).
  destruct roster as [|r' roster].
  - simpl in Hrest. injection Hrest as _ <-. rewrite store_transaction_eq. eauto.
  - eapply IH; [discriminate | exact Hrest].
Qed.

(** X20.  The state of the transaction record tells the result: after a run
    over a non-empty roster that returned true it is COMMIT, and after one
    that returned false it is ABORT. *)
Theorem record_state_tells_result (c : Coordinator) (o : Oracle) (t : nat)
    (w w' : World) (b : bool) :
  participants c <> [] ->
  execute_transaction c o t w = Returned b w' ->
  Transaction.state (transaction_at w' t) = if b then COMMIT else ABORT.
Proof.
  intros Hne Hrun.
  assert (Habort : forall wi u, _abort_all c o t wi = Returned u w' ->
                     Transaction.state (transaction_at w' t) = ABORT).
  { intros wi u Hab. apply _abort_all_returned in Hab as (xs & Hloop).
    eapply (for_each_every_call_sets _ _ _ ABORT); [|exact Hne|exact Hloop].
    intros f pw x pw' Hr. cbv beta in Hr. rewrite abort_guarded_eq in Hr.
    destruct x. apply (abort_moves _ _ _ _ Hr). }
  apply execute_transaction_returned in Hrun
    as (votes & w1 & Hp1 & [(_ & -> & Hab)|(_ & acks & w2 & Hp2 & Hcase)]);
    [eauto|].
  destruct Hcase as [(_ & -> & Hab)|(_ & Hno & -> & us & Hp3)]; [eauto|].
  pose proof (for_each_results _ _ _ _ pre_commit_answers _ _ _ _ _ Hp2) as Hans.
  pose proof (all_ack_prepared _ _ _ _ _ _ _ Hp2 (all_answers_ack _ Hans Hno))
    as Hprep.
  destruct (participants c) as [|r roster] eqn:Hroster; [contradiction|].
  apply for_each_cons_returned in Hp3 as (x & pw & ys & Hcall & Hrest & ->).
  destruct (Hprep r ltac:(left)) as (conn & _ & Hs & Hp & Hl).
  assert (Hfirst : Transaction.state (transaction pw) = COMMIT).
  { rewrite do_commit_eq in Hcall by exact Hl. simpl in Hcall.
    rewrite Hs, Hp in Hcall. simpl in Hcall.
    destruct (commit_fails _ || close_fails _); [discriminate|].
    injection Hcall as _ <-. through_log. reflexivity. }
  eapply (for_each_returned do_commit _ t (fun _ _ => True)
            (fun x y => Transaction.state x = COMMIT -> Transaction.state y = COMMIT))
    in Hrest; auto.
  - destruct Hrest as (_ & Hkeep & _). apply Hkeep.
    rewrite store_transaction_eq. exact Hfirst.
  - intros f pw0 u pw0' Hr. split; [exact I|].
    apply do_commit_moves in Hr as [->|(_ & _ & ->)]; auto.
Qed.

End RunFrame.

(** X21.  Registration keeps the order of the calls and keeps duplicates:
    the roster of a new coordinator on which the participants [ps] were added
    one after the other is [ps] itself, and its identifier is the one given
    at construction. *)
Theorem registration_keeps_order (name : string) (ps : list nat) :
  participants (fold_left add_participant ps (Coordinator__init__ name)) = ps
  /\ coordinator_id (fold_left add_participant ps (Coordinator__init__ name)) = name.
Proof.
  assert (Hgen : forall c,
             participants (fold_left add_participant ps c) = participants c ++ ps
             /\ coordinator_id (fold_left add_participant ps c) = coordinator_id c).
  { induction ps as [|p ps IH]; intros c; simpl.
    - rewrite app_nil_r. auto.
    - destruct (IH (add_participant c p)) as [-> ->]. simpl.
      rewrite <- app_assoc. auto. }
  apply (Hgen (Coordinator__init__ name)).
Qed.

Section CalmRun.
Context `{BackingStore}.

(** A loop over a roster without repetition, each call taking [J] to [Q]
    with a result in [P], the transaction staying in [K]. *)
Lemma for_each_distinct {A} (m : Faults -> M PWorld A) fs t
    (Fok : Faults -> Prop) (K : Transaction -> Prop)
    (J Q : nat -> Participant -> Prop) (P : A -> Prop) :
  (forall f r p tx,
      Fok f -> K tx -> J r p ->
      exists x pw',
        m f {| self := p; transaction := tx |} = Returned x pw'
        /\ P x /\ Q r (self pw') /\ K (transaction pw')) ->
  forall roster i w,
    NoDup roster ->
    (forall j, i <= j < i + length roster -> Fok (fs j)) ->
    K (transaction_at w t) ->
    (forall r, r ∈ roster -> J r (participant_at w r)) ->
    exists xs w',
      for_each m fs t i roster w = Returned xs w'
      /\ Forall P xs
      /\ K (transaction_at w' t)
      /\ (forall r, r ∈ roster -> Q r (participant_at w' r))
      /\ length xs = length roster.
Proof.
  intros Hm. induction roster as [|r roster IH]; intros i w Hnd Hfs HK HJ.
  - exists [], w. repeat split; auto. intros r Hr. inversion Hr.
  - apply NoDup_cons in Hnd as [Hout Hnd].
    destruct (Hm (fs i) r (participant_at w r) (transaction_at w t))
      as (x & pw & Hcall & HP & HQ & HK'); auto.
    { apply Hfs. simpl. lia. }
    { apply HJ. left. }
    destruct (IH (S i) (store r t pw w) Hnd) as (xs & w' & Hrest & HPs & HK'' & HQs & Hlen).
    { intros j Hj. apply Hfs. simpl. lia. }
    { rewrite store_transaction_eq. exact HK'. }
    { intros a Ha. rewrite store_participant_ne by (intros ->; contradiction).
      apply HJ. right. exact Ha. }
    exists (x :: xs), w'. split; [eapply for_each_cons; eassumption|].
    split; [constructor; assumption|]. split; [exact HK''|]. split.
    + intros a Ha. apply elem_of_cons in Ha as [->|Ha]; [|auto].
      rewrite (for_each_frame _ _ _ _ _ _ _ _ Hrest) by assumption.
      rewrite store_participant_eq. exact HQ.
    + simpl. congruence.
Qed.

(** X22.  What suffices for a commit, from whatever local states the
    participants are in (INIT, ABORT after a failed run, COMMIT after an
    earlier one): a non-empty roster without repetition whose locks are free,
    statements none of which is blank and which execute on the tables of
    every participant, and no fault in [connect], [close], [BEGIN] and
    [commit].  Then the run returns true and every participant is in COMMIT
    with the statements applied. *)
Theorem calm_run_commits (c : Coordinator) (o : Oracle) (t : nat) (w : World) :
  participants c <> [] ->
  NoDup (participants c) ->
  (forall r, r ∈ participants c -> lock (participant_at w r) = false) ->
  has_blank_query (Transaction.sql_queries (transaction_at w t)) = false ->
  (forall r, r ∈ participants c ->
     is_Some (execute_all (Transaction.sql_queries (transaction_at w t))
                (tables (database (participant_at w r))))) ->
  (forall i, i < length (participants c) ->
     connect_fails (at_can_commit o i) || close_fails (at_can_commit o i) = false
     /\ connect_fails (at_pre_commit o i) || begin_fails (at_pre_commit o i) = false
     /\ finalizes (at_do_commit o i)) ->
  commits_everywhere c o t w.
Proof.
  intros Hne Hnd Hfree Hvalid Hexec Hcalm.
  set (qs := Transaction.sql_queries (transaction_at w t)) in *.
  set (K := fun tx : Transaction => Transaction.sql_queries tx = qs).
  set (Static := fun r : nat =>
         is_Some (execute_all qs (tables (database (participant_at w r))))).
  set (Base := fun (r : nat) (p : Participant) =>
         lock p = false
         /\ tables (database p) = tables (database (participant_at w r))
         /\ Static r).
  set (Q3 := fun (r : nat) (p : Participant) =>
         state p = COMMIT /\ _pending_connection p = None
         /\ execute_all qs (tables (database (participant_at w r)))
            = Some (tables (database p))).
  assert (Hphase1 : exists votes w1,
            for_each can_commit (at_can_commit o) t 0 (participants c) w
            = Returned votes w1
            /\ Forall (eq YES) votes /\ K (transaction_at w1 t)
            /\ forall r, r ∈ participants c ->
                 Base r (participant_at w1 r)
                 /\ state (participant_at w1 r) = CAN_COMMIT).
  { destruct (for_each_distinct can_commit (at_can_commit o) t
                (fun f => connect_fails f || close_fails f = false) K
                Base (fun r p => Base r p /\ state p = CAN_COMMIT) (eq YES))
      with (roster := participants c) (i := 0) (w := w)
      as (votes & w1 & Hp1 & Hyes & HK1 & HQ1 & _).
    - intros f r p tx Hf HK (Hl & Ht & Hst).
      rewrite can_commit_eq by exact Hl. simpl. rewrite Hf, HK, Hvalid.
      do 2 eexists. split; [reflexivity|].
      unfold Base, K. through_log. simpl. repeat split; auto.
    - exact Hnd.
    - intros j Hj. apply Hcalm. lia.
    - reflexivity.
    - intros r Hr. unfold Base, Static. auto.
    - eauto 10. }
  destruct Hphase1 as (votes & w1 & Hp1 & Hyes & HK1 & HQ1).
  assert (Hphase2 : exists acks w2,
            for_each pre_commit (at_pre_commit o) t 0 (participants c) w1
            = Returned acks w2
            /\ Forall (eq ACK) acks /\ length acks = length (participants c)
            /\ forall r, r ∈ participants c ->
                 exists conn,
                   execute_all qs (tables (database (participant_at w r))) = Some conn
                   /\ state (participant_at w2 r) = PRE_COMMIT
                   /\ _pending_connection (participant_at w2 r) = Some conn
                   /\ lock (participant_at w2 r) = false).
  { destruct (for_each_distinct pre_commit (at_pre_commit o) t
                (fun f => connect_fails f || begin_fails f = false) K
                (fun r p => Base r p /\ state p = CAN_COMMIT)
                (fun r p => exists conn,
                   execute_all qs (tables (database (participant_at w r))) = Some conn
                   /\ state p = PRE_COMMIT /\ _pending_connection p = Some conn
                   /\ lock p = false)
                (eq ACK))
      with (roster := participants c) (i := 0) (w := w1)
      as (acks & w2 & Hp2 & Hack & HK2 & HQ2 & Hlen).
    - intros f r p tx Hf HK ((Hl & Ht & [conn Hex]) & Hs).
      rewrite pre_commit_eq by exact Hl. simpl. rewrite Hs, Hf, HK, Ht, Hex.
      destruct (decide (CAN_COMMIT <> CAN_COMMIT)) as [Hn|_]; [congruence|].
      do 2 eexists. split; [reflexivity|]. split; [reflexivity|]. simpl.
      split; [|exact HK]. exists conn. auto.
    - exact Hnd.
    - intros j Hj. apply Hcalm. lia.
    - exact HK1.
    - exact HQ1.
    - eauto 10. }
  destruct Hphase2 as (acks & w2 & Hp2 & Hack & Hlen & HQ2).
  assert (Hphase3 : exists us w3,
            for_each do_commit (at_do_commit o) t 0 (participants c) w2
            = Returned us w3
            /\ forall r, r ∈ participants c -> Q3 r (participant_at w3 r)).
  { destruct (for_each_distinct do_commit (at_do_commit o) t finalizes
                (fun _ => True)
                (fun r p => exists conn,
                   execute_all qs (tables (database (participant_at w r))) = Some conn
                   /\ state p = PRE_COMMIT /\ _pending_connection p = Some conn
                   /\ lock p = false)
                Q3 (fun _ : unit => True))
      with (roster := participants c) (i := 0) (w := w2)
      as (us & w3 & Hp3 & _ & _ & HQ3 & _).
    - intros f r p tx Hf _ (conn & Hex & Hpre).
      destruct (do_commit_finalizes f p tx conn Hf)
        as (u & pw' & Hr & Hs & Hp & _ & Ht); [left; exact Hpre|].
      exists u, pw'. unfold Q3. rewrite Ht. auto 10.
    - exact Hnd.
    - intros j Hj. apply Hcalm. lia.
    - exact I.
    - exact HQ2.
    - eauto. }
  destruct Hphase3 as (us & w3 & Hp3 & HQ3).
  exists w3. split; [|exact HQ3].
  unfold execute_transaction, try_except. unfold bind at 1. rewrite Hp1.
  rewrite bool_decide_eq_false_2
    by (intros Hin; rewrite Forall_forall in Hyes;
        specialize (Hyes _ Hin); discriminate).
  unfold bind at 1. rewrite Hp2.
  rewrite (bool_decide_eq_false_2 (NO ∈ acks))
    by (intros Hin; rewrite Forall_forall in Hack;
        specialize (Hack _ Hin); discriminate).
  rewrite (bool_decide_eq_false_2 (ACK ∉ acks)).
  - simpl. unfold bind. rewrite Hp3. reflexivity.
  - intros Hnot. apply Hnot.
    destruct acks as [|a acks];
      [destruct (participants c); [congruence | discriminate]|].
    apply Forall_cons in Hack as [<- _]. left.
Qed.

End CalmRun.

(** ** What the methods do to the data *)

Section DataIntegrity.
Context `{BackingStore}.


(** X24.  The pending write is never stale: if, before a method call that
    returns, the pending write (when there is one) is what some statements
    make of the committed tables, the same holds after the call.  So what
    [do_commit] publishes is always the result of running statements on the
    tables as they are at that moment. *)
Theorem pending_stays_prepared (f : Faults) (w w' : PWorld) :
  (exists v, can_commit f w = Returned v w')
  \/ (exists v, pre_commit f w = Returned v w')
  \/ do_commit f w = Returned tt w'
  \/ abort f w = Returned tt w' ->
  pending_is_prepared (self w) ->
  pending_is_prepared (self w').
Proof.
  unfold pending_is_prepared.
  intros [[v Hr]|[[v Hr]|[Hr|Hr]]] Hinv conn;
    pose proof (with_lock_returned _ _ _ _ Hr) as Hl.
  - rewrite can_commit_eq in Hr by assumption.
    destruct (connect_fails f || close_fails f); [injection Hr as _ <-; simpl; auto|].
    destruct (has_blank_query _); injection Hr as _ <-; [auto|].
    through_log. simpl. auto.
  - rewrite pre_commit_eq in Hr by assumption.
    destruct (decide _); [injection Hr as _ <-; auto|].
    destruct (connect_fails f || begin_fails f); [injection Hr as _ <-; simpl; auto|].
    destruct (execute_all _ _) as [c|] eqn:Hex; injection Hr as _ <-; simpl; auto.
    intros [= <-]. eauto.
  - rewrite do_commit_eq in Hr by assumption.
    destruct (decide _); [injection Hr as <-; auto|].
    destruct (_pending_connection (self w)) eqn:Hp;
      [destruct (commit_fails f || close_fails f); [discriminate|]|];
      injection Hr as <-; through_log; simpl; rewrite ?Hp; discriminate.
  - rewrite abort_eq in Hr by assumption. injection Hr as <-.
    through_log. simpl. discriminate.
Qed.

End DataIntegrity.

Section CommitNeedsAck.
Context `{BackingStore}.

Lemma step_into_prepared (c0 : Call) (w w0 : World) (v0 : option Vote) (r : nat) :
  invoke c0 w = Returned v0 w0 ->
  state (participant_at w0 r) = PRE_COMMIT \/ state (participant_at w0 r) = COMMIT ->
  (state (participant_at w r) = PRE_COMMIT \/ state (participant_at w r) = COMMIT)
  \/ (v0 = Some ACK /\ method c0 = PreCommit /\ target c0 = r).
Proof.
  intros Hinv Hs. apply invoke_returned in Hinv as (pw' & -> & Hcall).
  simpl in Hcall.
  destruct (decide (r = target c0)) as [->|Hne];
    [|left; rewrite store_participant_ne in Hs by assumption; exact Hs].
  rewrite store_participant_eq in Hs.
  destruct (method c0) eqn:Hm.
  - destruct Hcall as (x & -> & Hcall).
    apply can_commit_moves in Hcall as [(_ & Hc & _)|(_ & _ & [Hsame|Hab])];
      simpl in *.
    + destruct Hs; congruence.
    + left. rewrite <- Hsame. exact Hs.
    + destruct Hs; congruence.
  - destruct Hcall as (x & -> & Hcall).
    apply pre_commit_moves in Hcall
      as [(-> & _)|(_ & _ & [Hsame|Hab])]; simpl in *.
    + right. auto.
    + left. rewrite <- Hsame. exact Hs.
    + destruct Hs; congruence.
  - destruct Hcall as (_ & Hcall).
    apply do_commit_moves in Hcall as [->|(Hp & _)]; simpl in *; auto.
  - destruct Hcall as (_ & Hcall).
    apply abort_moves in Hcall as [Hab _]. destruct Hs; congruence.
Qed.

Lemma prepared_traces_back cs :
  forall w k r c v wk,
    history cs w !! k = Some (c, v, wk) ->
    state (participant_at wk r) = PRE_COMMIT \/ state (participant_at wk r) = COMMIT ->
    (state (participant_at w r) = PRE_COMMIT \/ state (participant_at w r) = COMMIT)
    \/ acked_upto (history cs w) k r.
Proof.
  induction cs as [|c0 cs IH]; intros w k r c v wk Hk Hs; simpl in Hk.
  - discriminate.
  - destruct (invoke c0 w) as [v0 w0| |] eqn:Hinv; try discriminate.
    simpl. rewrite Hinv.
    destruct k as [|k]; simpl in Hk.
    + injection Hk as <- <- <-.
      destruct (step_into_prepared _ _ _ _ r Hinv Hs) as [Hold|(-> & Hm & Ht)];
        [left; exact Hold|].
      right. exists 0, c0, w0. auto.
    + destruct (IH _ _ r _ _ _ Hk Hs) as [Hmid|(j & cj & wj & Hj & Hl & Hrest)].
      * destruct (step_into_prepared _ _ _ _ r Hinv Hmid) as [Hold|(-> & Hm & Ht)];
          [left; exact Hold|].
        right. exists 0, c0, w0. split; [lia|]. auto.
      * right. exists (S j), cj, wj. split; [lia|]. auto.
Qed.

(** X25.  [do_commit] never succeeds unless [pre_commit] acknowledged
    before: in every sequence of calls on a participant as constructed, if the
    participant is in PRE_COMMIT or COMMIT after some call, a [pre_commit] of
    that participant answered ACK at that call or earlier. *)
Theorem commit_needs_ack (cs : list Call) (w : World) (r : nat) :
  state (participant_at w r) = INIT ->
  forall k c v wk,
    history cs w !! k = Some (c, v, wk) ->
    state (participant_at wk r) = PRE_COMMIT \/ state (participant_at wk r) = COMMIT ->
    acked_upto (history cs w) k r.
Proof.
  intros Hinit k c v wk Hk Hs.
  destruct (prepared_traces_back cs w k r c v wk Hk Hs) as [[Hp|Hc]|Hack];
    [congruence | congruence | exact Hack].
Qed.

End CommitNeedsAck.

(** ** The visual simulator *)

Lemma vote_loop_spec (scenario : string) (ns : list NodeWidget.t) :
  forall i area ns' area' votes,
    vote_loop scenario i ns area = (ns', area', votes) ->
    (all votes = true <-> ~ (scenario = "FAIL_VOTE" /\ i <= 1 < i + length ns))
    /\ map NodeWidget.id ns' = map NodeWidget.id ns.
Proof.
  induction ns as [|n ns IH]; intros i area ns' area' votes Hrun; simpl in Hrun.
  - injection Hrun as <- _ <-. simpl. split; [|reflexivity].
    split; [intros _ [_ Hi]; lia | reflexivity].
  - destruct (String.eqb_spec scenario "FAIL_VOTE") as [Hs|Hs];
      destruct (Nat.eqb_spec i 1) as [Hi|Hi]; simpl in Hrun;
      destruct (vote_loop scenario (S i) ns _) as [[ns1 area1] votes1] eqn:Hrest;
      injection Hrun as <- _ <-;
      destruct (IH _ _ _ _ _ Hrest) as [Hall Hid]; simpl;
      (split; [|rewrite Hid; reflexivity]).
    + split; [discriminate | intros Hn; exfalso; apply Hn; split; [assumption | lia]].
    + rewrite Hall. split; intros Hn [Hs' Hr]; apply Hn; split; auto; lia.
    + rewrite Hall. split; intros Hn [Hs' Hr]; contradiction.
    + rewrite Hall. split; intros Hn [Hs' Hr]; contradiction.
Qed.

Lemma ack_loop_spec (scenario : string) (ns : list NodeWidget.t) :
  forall i area ns' area' acks,
    ack_loop scenario i ns area = (ns', area', acks) ->
    (all acks = true <-> ~ (scenario = "FAIL_PRE" /\ i <= 2 < i + length ns))
    /\ map NodeWidget.id ns' = map NodeWidget.id ns
    /\ forall j n,
         ns' !! j = Some n ->
         NodeWidget.status n
         = if String.eqb scenario "FAIL_PRE" && Nat.eqb (i + j) 2
           then "TIMEOUT / CRASH" else "ACK PRE-COMMIT".
Proof.
  induction ns as [|n ns IH]; intros i area ns' area' acks Hrun; simpl in Hrun.
  - injection Hrun as <- _ <-. simpl. split; [|split; [reflexivity|]].
    + split; [intros _ [_ Hi]; lia | reflexivity].
    + intros j n Hj. discriminate.
  - destruct (String.eqb scenario "FAIL_PRE" && Nat.eqb i 2) eqn:Hc;
      destruct (ack_loop scenario (S i) ns _) as [[ns1 area1] acks1] eqn:Hrest;
      injection Hrun as <- _ <-;
      destruct (IH _ _ _ _ _ Hrest) as (Hall & Hid & Hst); simpl;
      (split; [|split; [rewrite Hid; reflexivity|]]).
    + apply andb_true_iff in Hc as [Hs Hi].
      apply String.eqb_eq in Hs. apply Nat.eqb_eq in Hi.
      split; [discriminate | intros Hn; exfalso; apply Hn; split; [assumption | lia]].
    + intros [|j] m Hj; simpl in Hj.
      * injection Hj as <-. simpl. rewrite Nat.add_0_r, Hc. reflexivity.
      * rewrite (Hst _ _ Hj). replace (S i + j) with (i + S j) by lia. reflexivity.
    + rewrite Hall. split; intros Hn [Hs Hr]; apply Hn; (split; [assumption|]);
        (destruct (decide (i = 2)) as [->|Hi];
         [rewrite Hs in Hc; simpl in Hc; discriminate | lia]).
    + intros [|j] m Hj; simpl in Hj.
      * injection Hj as <-. simpl. rewrite Nat.add_0_r, Hc. reflexivity.
      * rewrite (Hst _ _ Hj). replace (S i + j) with (i + S j) by lia. reflexivity.
Qed.

Lemma rollback_loop_spec (scenario : string) (ns : list NodeWidget.t) :
  forall i j n,
    rollback_loop scenario i ns !! j = Some n ->
    exists m,
      ns !! j = Some m
      /\ NodeWidget.status n
         = if String.eqb scenario "FAIL_PRE" && Nat.eqb (i + j) 2
           then NodeWidget.status m else "ROLLBACK".
Proof.
  induction ns as [|m ns IH]; intros i j n Hj; simpl in Hj; [discriminate|].
  destruct j as [|j]; simpl in Hj.
  - injection Hj as <-. exists m. split; [reflexivity|].
    rewrite Nat.add_0_r.
    destruct (String.eqb scenario "FAIL_PRE" && Nat.eqb i 2); reflexivity.
  - destruct (IH _ _ _ Hj) as (m' & Hm & Hs). exists m'. split; [exact Hm|].
    rewrite Hs. replace (S i + j) with (i + S j) by lia. reflexivity.
Qed.

Lemma commit_loop_spec (ns : list NodeWidget.t) :
  forall area ns' area',
    commit_loop ns area = (ns', area') ->
    Forall (fun n => NodeWidget.status n = "COMMITTED"
                     /\ NodeWidget.fill n = COLOR_COMMIT) ns'.
Proof.
  induction ns as [|n ns IH]; intros area ns' area' Hrun; simpl in Hrun.
  - injection Hrun as <- _. constructor.
  - destruct (commit_loop ns _) as [ns1 area1] eqn:Hrest.
    injection Hrun as <- _. constructor; [split; reflexivity | eauto].
Qed.

(** X26.  What a run of the simulator shows at its end, for any scenario
    name and any number of nodes.  With ["FAIL_VOTE"] and at least two nodes,
    every node shows ABORTED in the abort colour.  With ["FAIL_PRE"] and at
    least three nodes, the third node keeps TIMEOUT / CRASH and every other
    node shows ROLLBACK.  In every other case, an unknown scenario name
    included, every node shows COMMITTED in the commit colour. *)
Theorem run_logic_outcome (scenario : string) (app : SimulatorApp) :
  (scenario = "FAIL_VOTE" -> 2 <= length (nodes app) ->
   NodeWidget.status (coord_node (run_logic scenario app)) = "SENDING ABORT"
   /\ Forall (fun n => NodeWidget.status n = "ABORTED"
                       /\ NodeWidget.fill n = COLOR_ABORT)
        (nodes (run_logic scenario app)))
  /\ (scenario = "FAIL_PRE" -> 3 <= length (nodes app) ->
      NodeWidget.status (coord_node (run_logic scenario app)) = "SENDING ABORT"
      /\ forall j n,
           nodes (run_logic scenario app) !! j = Some n ->
           NodeWidget.status n
           = if Nat.eqb j 2 then "TIMEOUT / CRASH" else "ROLLBACK")
  /\ (~ (scenario = "FAIL_VOTE" /\ 2 <= length (nodes app)) ->
      ~ (scenario = "FAIL_PRE" /\ 3 <= length (nodes app)) ->
      NodeWidget.status (coord_node (run_logic scenario app)) = "COMMITTING"
      /\ Forall (fun n => NodeWidget.status n = "COMMITTED"
                          /\ NodeWidget.fill n = COLOR_COMMIT)
           (nodes (run_logic scenario app))).
Proof.
  unfold run_logic. simpl.
  destruct (vote_loop scenario 0 _ _) as [[ns1 area1] votes] eqn:Hvote.
  destruct (vote_loop_spec _ _ _ _ _ _ _ Hvote) as [Hall1 Hid1].
  rewrite !length_map in Hall1.
  assert (Hlen1 : length ns1 = length (nodes app)).
  { rewrite <- (length_map NodeWidget.id ns1), Hid1, !length_map. reflexivity. }
  destruct (all votes) eqn:Hv; simpl.
  - assert (Hok1 : ~ (scenario = "FAIL_VOTE" /\ 2 <= length (nodes app)))
      by (intros [Hs Hl]; apply (proj1 Hall1 eq_refl); split; [assumption | lia]).
    destruct (ack_loop scenario 0 ns1 _) as [[ns2 area2] acks] eqn:Hack.
    destruct (ack_loop_spec _ _ _ _ _ _ _ Hack) as (Hall2 & Hid2 & Hst2).
    rewrite Hlen1 in Hall2.
    destruct (all acks) eqn:Ha; simpl.
    + assert (Hok2 : ~ (scenario = "FAIL_PRE" /\ 3 <= length (nodes app)))
        by (intros [Hs Hl]; apply (proj1 Hall2 eq_refl); split; [assumption | lia]).
      destruct (commit_loop ns2 _) as [ns3 area3] eqn:Hcommit. simpl.
      split; [intros Hs Hl; exfalso; apply Hok1; auto|].
      split; [intros Hs Hl; exfalso; apply Hok2; auto|].
      intros _ _. split; [reflexivity|]. eapply commit_loop_spec; eassumption.
    + assert (Hpre : scenario = "FAIL_PRE" /\ 3 <= length (nodes app)).
      { destruct (decide (scenario = "FAIL_PRE" /\ 0 <= 2 < 0 + length (nodes app)))
          as [[Hs Hl]|Hn]; [split; [assumption | lia]|].
        apply Hall2 in Hn. congruence. }
      destruct Hpre as [Hs Hl].
      split; [intros Hs' _; subst; discriminate|].
      split; [|intros _ Hn; exfalso; apply Hn; auto].
      intros _ _. split; [reflexivity|]. intros j n Hj.
      apply rollback_loop_spec in Hj as (m & Hm & Hst). rewrite Hst. simpl.
      rewrite (Hst2 _ _ Hm). simpl.
      destruct (String.eqb scenario "FAIL_PRE" && Nat.eqb j 2) eqn:Hc;
        destruct (Nat.eqb j 2) eqn:Hj2; try reflexivity.
      * rewrite andb_false_r in Hc. discriminate.
      * apply andb_false_iff in Hc as [Hc|Hc]; [|discriminate].
        apply String.eqb_neq in Hc. contradiction.
  - assert (Hvote' : scenario = "FAIL_VOTE" /\ 2 <= length (nodes app)).
    { destruct (decide (scenario = "FAIL_VOTE" /\ 0 <= 1 < 0 + length (nodes app)))
        as [[Hs Hl]|Hn]; [split; [assumption | lia]|].
      apply Hall1 in Hn. congruence. }
    destruct Hvote' as [Hs Hl].
    split; [|split].
    + intros _ _. split; [reflexivity|].
      apply Forall_map. apply Forall_forall. intros n _. split; reflexivity.
    + intros Hs' _. subst. discriminate.
    + intros Hn. exfalso. apply Hn. auto.
Qed.

Lemma map_id_set_state (state_text color : string) (ns : list NodeWidget.t) :
  map NodeWidget.id (map (NodeWidget.set_state state_text color) ns)
  = map NodeWidget.id ns.
Proof. induction ns as [|n ns IH]; simpl; [reflexivity | rewrite IH; reflexivity]. Qed.

(** X27.  A run erases what earlier runs left on the display: two
    simulators whose nodes carry the same names, whatever their colours,
    labels and log content, show the same display and the same log after a
    run of the same scenario; and a run keeps the names and the number of the
    nodes. *)
Theorem run_logic_forgets_display (scenario : string) (app1 app2 : SimulatorApp) :
  NodeWidget.id (coord_node app1) = NodeWidget.id (coord_node app2) ->
  map NodeWidget.id (nodes app1) = map NodeWidget.id (nodes app2) ->
  run_logic scenario app1 = run_logic scenario app2
  /\ map NodeWidget.id (nodes (run_logic scenario app1))
     = map NodeWidget.id (nodes app1).
Proof.
  intros Hc Hn.
  assert (Hreset : reset_ui app1 = reset_ui app2).
  { unfold reset_ui. f_equal.
    - unfold NodeWidget.set_state. rewrite Hc. reflexivity.
    - revert Hn. generalize (nodes app2). induction (nodes app1) as [|n ns IH];
        intros [|m ms] Hn; simpl in *; try discriminate; [reflexivity|].
      injection Hn as Hid Hn. unfold NodeWidget.set_state at 1 3.
      rewrite Hid. f_equal. apply IH. exact Hn. }
  split.
  - unfold run_logic. rewrite Hreset. reflexivity.
  - unfold run_logic. simpl.
    destruct (vote_loop scenario 0 _ _) as [[ns1 area1] votes] eqn:Hvote.
    destruct (vote_loop_spec _ _ _ _ _ _ _ Hvote) as [_ Hid1].
    rewrite !map_id_set_state in Hid1.
    destruct (all votes); simpl.
    + destruct (ack_loop scenario 0 ns1 _) as [[ns2 area2] acks] eqn:Hack.
      destruct (ack_loop_spec _ _ _ _ _ _ _ Hack) as (_ & Hid2 & _).
      destruct (all acks); simpl.
      * destruct (commit_loop ns2 _) as [ns3 area3] eqn:Hcommit. simpl.
        assert (Hid3 : forall ns area ns' area',
                   commit_loop ns area = (ns', area') ->
                   map NodeWidget.id ns' = map NodeWidget.id ns).
        { induction ns as [|n ns IH]; intros area ns' area' Hrun; simpl in Hrun.
          - injection Hrun as <- _. reflexivity.
          - destruct (commit_loop ns _) as [ns0 area0] eqn:Hrest.
            injection Hrun as <- _. simpl. f_equal. eauto. }
        rewrite (Hid3 _ _ _ _ Hcommit), Hid2, Hid1. reflexivity.
      * assert (Hid3 : forall ns i,
                   map NodeWidget.id (rollback_loop scenario i ns)
                   = map NodeWidget.id ns).
        { induction ns as [|n ns IH]; intros i; simpl; [reflexivity|].
          rewrite IH. f_equal.
          destruct (negb _); reflexivity. }
        rewrite Hid3, Hid2, Hid1. reflexivity.
    + rewrite map_id_set_state. exact Hid1.
Qed.

(** ** Cleaning up the demo files *)

Lemma remove_if_exists_spec denied path fs fs' :
  remove_if_exists denied path fs = Some fs' ->
  (forall x, x ∈ fs' <-> x ∈ fs /\ x <> path)
  /\ (path ∈ fs -> denied path = false).
Proof.
  unfold remove_if_exists. destruct (decide (path ∈ fs)) as [Hin|Hout].
  - destruct (denied path); [discriminate|]. intros [= <-].
    split; [|reflexivity].
    intros x. rewrite elem_of_difference, elem_of_singleton. tauto.
  - intros [= <-]. split; [|contradiction].
    intros x. split; [intros Hx; split; [exact Hx | intros ->; contradiction]|].
    intros [Hx _]. exact Hx.
Qed.

Lemma remove_if_exists_denied denied path fs :
  remove_if_exists denied path fs = None -> path ∈ fs /\ denied path = true.
Proof.
  unfold remove_if_exists. destruct (decide (path ∈ fs)); [|discriminate].
  destruct (denied path); [auto | discriminate].
Qed.

Lemma in_files_of (db x : string) :
  x ∈ files_of db <-> x = db \/ x = db +:+ "-wal" \/ x = db +:+ "-shm".
Proof.
  unfold files_of. rewrite !elem_of_union, !elem_of_singleton. tauto.
Qed.

Lemma try_remove_base_spec denied db fs fs' done :
  try_remove_base denied db fs = (fs', done) ->
  (forall x, x ∈ fs' -> x ∈ fs)
  /\ (forall x, x ∉ files_of db -> x ∈ fs -> x ∈ fs')
  /\ (forall x, denied x = true -> x ∈ fs -> x ∈ fs')
  /\ (done = true -> forall x, x ∈ files_of db -> x ∉ fs')
  /\ ((forall x, x ∈ files_of db -> denied x = false) -> done = true).
Proof.
  unfold try_remove_base.
  destruct (remove_if_exists denied db fs) as [fs1|] eqn:H1.
  2:{ intros [= <- <-]. apply remove_if_exists_denied in H1 as [Hin Hd].
      split; [auto|]. split; [auto|]. split; [auto|]. split; [discriminate|].
      intros Hfree. rewrite Hfree in Hd by (apply in_files_of; auto).
      discriminate. }
  apply remove_if_exists_spec in H1 as [H1 D1].
  assert (K1 : forall x, denied x = true -> x ∈ fs -> x ∈ fs1).
  { intros x Hx Hfs. apply H1. split; [exact Hfs|]. intros ->.
    rewrite D1 in Hx by assumption. discriminate. }
  assert (O1 : forall x, x ∉ files_of db -> x ∈ fs -> x ∈ fs1).
  { intros x Hx Hfs. apply H1. split; [exact Hfs|]. intros ->.
    apply Hx, in_files_of. auto. }
  destruct (remove_if_exists denied (db +:+ "-wal") fs1) as [fs2|] eqn:H2.
  2:{ intros [= <- <-]. apply remove_if_exists_denied in H2 as [Hin Hd].
      split; [intros x Hx; apply H1 in Hx as [Hx _]; exact Hx|].
      split; [exact O1|]. split; [exact K1|]. split; [discriminate|].
      intros Hfree. rewrite Hfree in Hd by (apply in_files_of; auto).
      discriminate. }
  apply remove_if_exists_spec in H2 as [H2 D2].
  assert (K2 : forall x, denied x = true -> x ∈ fs -> x ∈ fs2).
  { intros x Hx Hfs. apply H2. split; [apply K1; assumption|]. intros ->.
    rewrite D2 in Hx by (apply K1; assumption). discriminate. }
  assert (O2 : forall x, x ∉ files_of db -> x ∈ fs -> x ∈ fs2).
  { intros x Hx Hfs. apply H2. split; [apply O1; assumption|]. intros ->.
    apply Hx, in_files_of. auto. }
  assert (S2 : forall x, x ∈ fs2 -> x ∈ fs).
  { intros x Hx. apply H2 in Hx as [Hx _]. apply H1 in Hx as [Hx _]. exact Hx. }
  destruct (remove_if_exists denied (db +:+ "-shm") fs2) as [fs3|] eqn:H3.
  2:{ intros [= <- <-]. apply remove_if_exists_denied in H3 as [Hin Hd].
      split; [exact S2|]. split; [exact O2|]. split; [exact K2|].
      split; [discriminate|].
      intros Hfree. rewrite Hfree in Hd by (apply in_files_of; auto).
      discriminate. }
  apply remove_if_exists_spec in H3 as [H3 D3].
  intros [= <- <-].
  split; [intros x Hx; apply H3 in Hx as [Hx _]; apply S2; exact Hx|].
  split.
  { intros x Hx Hfs. apply H3. split; [apply O2; assumption|]. intros ->.
    apply Hx, in_files_of. auto. }
  split.
  { intros x Hx Hfs. apply H3. split; [apply K2; assumption|]. intros ->.
    rewrite D3 in Hx by (apply K2; assumption). discriminate. }
  split; [|reflexivity].
  intros _ x Hx Hin. apply in_files_of in Hx.
  apply H3 in Hin as [Hin N3]. apply H2 in Hin as [Hin N2].
  apply H1 in Hin as [Hin N1]. destruct Hx as [Hx|[Hx|Hx]]; contradiction.
Qed.

Lemma attempts_spec denied db remaining :
  forall attempt fs,
    (forall x, x ∈ attempts denied db attempt remaining fs -> x ∈ fs)
    /\ (forall x, x ∉ files_of db -> x ∈ fs ->
          x ∈ attempts denied db attempt remaining fs)
    /\ (forall x, (forall k, denied k x = true) -> x ∈ fs ->
          x ∈ attempts denied db attempt remaining fs)
    /\ (forall k, attempt <= k < attempt + remaining ->
          (forall x, x ∈ files_of db -> denied k x = false) ->
          forall x, x ∈ files_of db ->
            x ∉ attempts denied db attempt remaining fs).
Proof.
  induction remaining as [|remaining IH]; intros attempt fs; simpl.
  - split; [auto|]. split; [auto|]. split; [auto|]. intros k Hk. lia.
  - destruct (try_remove_base (denied attempt) db fs) as [fs' done] eqn:Htry.
    apply try_remove_base_spec in Htry as (Hsub & Hout & Hden & Hdone & Hfree).
    destruct done.
    + split; [exact Hsub|]. split; [exact Hout|].
      split; [intros x Hx; apply Hden, Hx|].
      intros k Hk Hk' x Hx. apply Hdone; [reflexivity | exact Hx].
    + destruct (IH (S attempt) fs') as (IHsub & IHout & IHden & IHclean).
      split; [intros x Hx; apply Hsub, IHsub, Hx|].
      split; [intros x Hx Hfs; apply IHout; [exact Hx | apply Hout; assumption]|].
      split; [intros x Hx Hfs; apply IHden; [exact Hx | apply Hden; [apply Hx | exact Hfs]]|].
      intros k Hk Hk' x Hx. destruct (decide (k = attempt)) as [->|Hne].
      * specialize (Hfree Hk'). discriminate.
      * apply (IHclean k); [lia | exact Hk' | exact Hx].
Qed.


(** X28.  [nettoyer_bases] only removes, and only the files of the bases
    it is given: no path appears that did not exist, and every existing path
    that is not a base, its [-wal] or its [-shm] file still exists
    afterwards, whatever is locked. *)
Theorem nettoyer_bases_removes_only_its_files (denied : nat -> nat -> string -> bool)
    (bases : list string) :
  forall (i : nat) (fs : gset string),
    (forall x, x ∈ nettoyer_bases denied i bases fs -> x ∈ fs)
    /\ (forall x,
          (forall db, db ∈ bases -> x ∉ files_of db) ->
          x ∈ fs -> x ∈ nettoyer_bases denied i bases fs).
Proof.
  induction bases as [|db bases IH]; intros i fs; simpl; [auto|].
  destruct (attempts_spec (denied i) db 5 0 fs) as (Hsub & Hout & _ & _).
  destruct (IH (S i) (attempts (denied i) db 0 5 fs)) as [IHsub IHout].
  split.
  - intros x Hx. apply Hsub, IHsub, Hx.
  - intros x Hx Hfs. apply IHout.
    + intros db' Hdb'. apply Hx. right. exact Hdb'.
    + apply Hout; [apply Hx; left | exact Hfs].
Qed.



(** * The claims on concrete runs *)

(** The transfer of the demo driver on three replicas, without faults. *)
Lemma unanimous_run_commits_witness : commits_everywhere coordinateur calm 0 bank.
Proof.
  apply unanimous_run_commits.
  - discriminate.
  - do 4 eexists. split; [reflexivity|]. split; [repeat constructor|].
    split; [reflexivity|]. repeat constructor.
  - intros i _. split; reflexivity.
Defined.

(** C1 as stated fails: all three replicas answer YES then ACK, the second
    one cannot finalize, and the run never returns. *)
Lemma unanimous_run_blocked_by_finalize_fault :
  participants coordinateur <> []
  /\ unanimous coordinateur finalize_storm 0 bank
  /\ execute_transaction coordinateur finalize_storm 0 bank = Blocked
  /\ ~ commits_everywhere coordinateur finalize_storm 0 bank.
Proof.
  assert (Hb : execute_transaction coordinateur finalize_storm 0 bank = Blocked)
    by reflexivity.
  split; [discriminate|]. split; [|split; [exact Hb|]].
  - do 4 eexists. split; [reflexivity|]. split; [repeat constructor|].
    split; [reflexivity|]. repeat constructor.
  - intros (w' & Hret & _). rewrite Hb in Hret. discriminate.
Qed.

(** The invalid transfer of the demo driver: every replica votes NO. *)
Lemma no_vote_aborts_everywhere_witness :
  exists w',
    execute_transaction coordinateur calm 1 bank = Returned false w'
    /\ forall r, r ∈ participants coordinateur ->
         state (participant_at w' r) = ABORT
         /\ _pending_connection (participant_at w' r) = None
         /\ tables (database (participant_at w' r))
            = tables (database (participant_at bank r)).
Proof.
  edestruct (no_vote_aborts_everywhere coordinateur calm 1 bank)
    as (w' & _ & Hret & Hend).
  - reflexivity.
  - left.
  - exists w'. split; [exact Hret | exact Hend].
Defined.


(** C4 as stated fails: on the invalid transfer of the demo driver the
    replica votes NO and is still in INIT, not in ABORT. *)
Lemma invalid_statement_leaves_init :
  exists w',
    can_commit no_faults {| self := replica 0; transaction := invalid_transfer |}
    = Returned NO w'
    /\ state (self w') = INIT
    /\ state (self w') <> ABORT.
Proof.
  eexists. split; [reflexivity|]. split; [reflexivity | discriminate].
Qed.

Lemma can_commit_rejections_witness :
  can_commit no_faults {| self := replica 0; transaction := invalid_transfer |}
  = Returned NO {| self := replica 0; transaction := invalid_transfer |}.
Proof.
  destruct (can_commit_rejections no_faults
              {| self := replica 0; transaction := invalid_transfer |})
    as (Hinvalid & _); [reflexivity|].
  apply Hinvalid; reflexivity.
Defined.

(** C5 as stated fails: the ACK is for a transaction that was never put to
    the vote; the YES before it was for another one. *)
Lemma ack_without_yes_for_that_transaction :
  ~ ack_follows_yes_of_same_pair yes_then_other bank.
Proof.
  intros Hclaim.
  destruct (Hclaim 1 0 2) as (j & c & w & Hj & Hl & _ & _ & Hsub).
  - do 2 eexists. split; [reflexivity|]. repeat split.
  - apply history_call in Hl.
    destruct j as [|j]; [|lia].
    injection Hl as <-. discriminate.
Qed.

Lemma pre_commit_needs_earlier_yes_witness :
  (forall k t,
      acked_at (history yes_then_ack bank) k 0 t ->
      exists t', voted_yes_before (history yes_then_ack bank) k 0 t')
  /\ acked_at (history yes_then_ack bank) 1 0 0
  /\ voted_yes_before (history yes_then_ack bank) 1 0 0.
Proof.
  split; [|split].
  - apply (pre_commit_needs_earlier_yes yes_then_ack bank 0). reflexivity.
  - do 2 eexists. split; [reflexivity|]. repeat split.
  - exists 0. do 2 eexists. split; [lia|]. split; [reflexivity|]. repeat split.
Defined.



(** C7 as stated fails: [can_commit] called on a prepared replica answers
    YES and moves it to CAN_COMMIT with the write still pending. *)
Lemma can_commit_keeps_stale_handle :
  pending_only_in_pre_commit prepared_replica
  /\ exists w',
       can_commit log_fault {| self := prepared_replica; transaction := transfer |}
       = Returned YES w'
       /\ state (self w') = CAN_COMMIT
       /\ _pending_connection (self w') = Some [debit_alice; credit_bob]
       /\ ~ pending_only_in_pre_commit (self w').
Proof.
  split; [intros _; reflexivity|].
  eexists. split; [reflexivity|]. split; [reflexivity|]. split; [reflexivity|].
  intros Hinv. specialize (Hinv ltac:(discriminate)). discriminate.
Qed.

Lemma pending_handle_discipline_witness :
  exists w',
    do_commit no_faults {| self := prepared_replica; transaction := transfer |}
    = Returned tt w'
    /\ pending_only_in_pre_commit (self w')
    /\ (state (self w') = COMMIT -> _pending_connection (self w') = None).
Proof.
  destruct (pending_handle_discipline no_faults
              {| self := prepared_replica; transaction := transfer |})
    as (_ & Hdo & _).
  - reflexivity.
  - intros _. reflexivity.
  - destruct (Hdo eq_refl) as (w' & Hret & Hinv & Hnone & _).
    exists w'. split; [exact Hret|]. split; [exact Hinv | exact Hnone].
Defined.

(** C8: the prepared replica whose [commit()] raises. *)
Lemma do_commit_finalize_fault_witness :
  do_commit commit_fault {| self := prepared_replica; transaction := transfer |}
  = Blocked.
Proof.
  apply (do_commit_finalize_fault_blocks commit_fault
           {| self := prepared_replica; transaction := transfer |}
           [debit_alice; credit_bob]); reflexivity.
Defined.

Lemma abort_on_aborted_witness :
  exists w',
    abort no_faults {| self := aborted_replica; transaction := transfer |}
    = Returned tt w'
    /\ tables (database (self w')) = tables (database aborted_replica)
    /\ state (self w') = ABORT.
Proof.
  destruct (abort_on_aborted_changes_no_data no_faults
              {| self := aborted_replica; transaction := transfer |})
    as (w' & Hret & Htab & Hst & _); try reflexivity.
  exists w'. split; [exact Hret|]. split; [exact Htab | exact Hst].
Defined.

Lemma empty_roster_witness :
  execute_transaction nobody calm 0 bank = Returned false bank.
Proof.
  apply (empty_roster_returns_false nobody calm 0 bank). reflexivity.
Defined.

(** * The further properties on concrete runs *)

Lemma demo_run_returns_true :
  exists w', execute_transaction coordinateur calm 0 bank = Returned true w'.
Proof. eexists. vm_compute. reflexivity. Qed.


Lemma twice_run_returns_false :
  exists w', execute_transaction twice calm 0 bank = Returned false w'.
Proof. eexists. vm_compute. reflexivity. Qed.

Lemma replicas_unlocked (w : nat -> Participant) :
  w = replica -> forall r, lock (w r) = false.
Proof. intros -> r. destruct r as [|[|r]]; reflexivity. Qed.


Lemma can_commit_vote_ignores_participant_witness :
  exists v w1' w2',
    can_commit no_faults {| self := replica 0; transaction := transfer |}
    = Returned v w1'
    /\ can_commit no_faults {| self := committed_replica; transaction := transfer |}
       = Returned v w2'.
Proof.
  destruct (can_commit_vote_ignores_participant no_faults
              {| self := replica 0; transaction := transfer |}
              {| self := committed_replica; transaction := transfer |})
    as (v & w1' & w2' & H1 & H2 & _); try reflexivity.
  exists v, w1', w2'. split; assumption.
Defined.



Lemma do_commit_twice_witness :
  exists w1,
    do_commit no_faults {| self := prepared_replica; transaction := transfer |}
    = Returned tt w1
    /\ do_commit commit_fault w1 = Returned tt w1.
Proof.
  eexists. split; [reflexivity|].
  apply (do_commit_twice no_faults commit_fault
           {| self := prepared_replica; transaction := transfer |}).
  reflexivity.
Defined.

Lemma abort_from_any_state_witness :
  exists w',
    abort rollback_fault {| self := committed_replica; transaction := transfer |}
    = Returned tt w'
    /\ state (self w') = ABORT
    /\ tables (database (self w')) = [debit_alice; credit_bob].
Proof.
  destruct (abort_from_any_state rollback_fault
              {| self := committed_replica; transaction := transfer |})
    as (w' & Hret & Hs & _ & _ & Ht & _); [reflexivity|].
  exists w'. split; [exact Hret|]. split; [exact Hs | exact Ht].
Defined.

Lemma abort_twice_witness :
  exists w1,
    abort no_faults {| self := prepared_replica; transaction := transfer |}
    = Returned tt w1
    /\ abort rollback_fault w1 = Returned tt w1.
Proof.
  eexists. split; [reflexivity|].
  apply (abort_twice no_faults rollback_fault
           {| self := prepared_replica; transaction := transfer |});
    reflexivity.
Defined.

Lemma new_participant_enforces_order_witness :
  pre_commit no_faults {| self := replica 0; transaction := transfer |}
  = Returned NO {| self := replica 0; transaction := transfer |}.
Proof.
  apply (new_participant_enforces_order no_faults no_faults no_faults
           "replica-1" "banque_replica_1.db" empty_file (replica 0) transfer).
  reflexivity.
Defined.

Lemma new_participant_three_phases_witness :
  exists w1 w2 w3,
    can_commit no_faults {| self := replica 0; transaction := transfer |}
    = Returned YES w1
    /\ pre_commit no_faults w1 = Returned ACK w2
    /\ do_commit log_fault w2 = Returned tt w3
    /\ state (self w3) = COMMIT
    /\ tables (database (self w3)) = [debit_alice; credit_bob].
Proof.
  destruct (new_participant_three_phases no_faults no_faults no_faults log_fault
              "replica-1" "banque_replica_1.db" empty_file (replica 0) transfer
              [debit_alice; credit_bob])
    as (w1 & w2 & w3 & H1 & H2 & H3 & Hs & _ & Ht & _);
    try reflexivity.
  - split; reflexivity.
  - exists w1, w2, w3. auto.
Defined.

Lemma true_means_committed_everywhere_witness :
  exists w',
    execute_transaction coordinateur calm 0 bank = Returned true w'
    /\ forall r, r ∈ participants coordinateur ->
         state (participant_at w' r) = COMMIT.
Proof.
  destruct demo_run_returns_true as (w' & Hrun).
  exists w'. split; [exact Hrun|]. intros r Hr.
  apply (true_means_committed_everywhere coordinateur calm 0 bank w' Hrun).
  exact Hr.
Defined.


Lemma execute_transaction_returns_witness :
  exists b w', execute_transaction coordinateur prepare_storm 0 bank = Returned b w'.
Proof.
  apply execute_transaction_returns.
  - intros r _. apply (replicas_unlocked _ eq_refl).
  - intros i _. split; reflexivity.
Defined.


Lemma blank_statement_witness :
  exists w', execute_transaction coordinateur finalize_storm 1 bank = Returned false w'.
Proof.
  destruct (blank_statement_always_aborts coordinateur finalize_storm 1 bank)
    as (w' & Hret & _).
  - intros r _. apply (replicas_unlocked _ eq_refl).
  - reflexivity.
  - exists w'. exact Hret.
Defined.


Lemma run_touches_roster_only_witness :
  exists w',
    execute_transaction twice calm 0 bank = Returned false w'
    /\ participant_at w' 1 = participant_at bank 1
    /\ transaction_at w' 1 = transaction_at bank 1.
Proof.
  destruct twice_run_returns_false as (w' & Hrun).
  exists w'. split; [exact Hrun|].
  destruct (run_touches_roster_only twice calm 0 bank w' false Hrun)
    as (Hout & Htx & _).
  split.
  - apply Hout. intros Hin.
    repeat (apply elem_of_cons in Hin as [Hin|Hin]; [discriminate|]).
    inversion Hin.
  - apply Htx. discriminate.
Defined.

Lemma record_state_tells_result_witness :
  exists w',
    execute_transaction coordinateur calm 0 bank = Returned true w'
    /\ Transaction.state (transaction_at w' 0) = COMMIT.
Proof.
  destruct demo_run_returns_true as (w' & Hrun).
  exists w'. split; [exact Hrun|].
  apply (record_state_tells_result coordinateur calm 0 bank w' true);
    [discriminate | exact Hrun].
Defined.

Lemma calm_run_commits_witness : commits_everywhere coordinateur calm 0 bank.
Proof.
  apply calm_run_commits.
  - discriminate.
  - repeat constructor; intros Hin;
      repeat (apply elem_of_cons in Hin as [Hin|Hin]; [discriminate|]);
      inversion Hin.
  - intros r _. apply (replicas_unlocked _ eq_refl).
  - reflexivity.
  - intros r _. destruct r as [|[|r]]; eexists; reflexivity.
  - intros i _. repeat split; reflexivity.
Defined.


Lemma pending_stays_prepared_witness :
  exists w',
    pre_commit no_faults {| self := voted_replica; transaction := transfer |}
    = Returned ACK w'
    /\ pending_is_prepared (self w').
Proof.
  eexists. split; [reflexivity|].
  apply (pending_stays_prepared no_faults
           {| self := voted_replica; transaction := transfer |}).
  - right. left. exists ACK. reflexivity.
  - intros conn Hc. discriminate Hc.
Defined.

Lemma full_round_history :
  exists e1 e2 c w3,
    history full_round bank = [e1; e2; (c, None, w3)]
    /\ state (participant_at w3 0) = COMMIT.
Proof. do 4 eexists. vm_compute. split; reflexivity. Qed.

Lemma commit_needs_ack_witness : acked_upto (history full_round bank) 2 0.
Proof.
  destruct full_round_history as (e1 & e2 & c & w3 & Hh & Hs).
  apply (commit_needs_ack full_round bank 0 eq_refl 2 c None w3).
  - rewrite Hh. reflexivity.
  - right. exact Hs.
Defined.

Lemma run_logic_outcome_witness :
  Forall (fun n => NodeWidget.status n = "ABORTED" /\ NodeWidget.fill n = COLOR_ABORT)
    (nodes (run_logic "FAIL_VOTE" SimulatorApp__init__)).
Proof.
  destruct (run_logic_outcome "FAIL_VOTE" SimulatorApp__init__) as (Hvote & _).
  apply Hvote; [reflexivity | simpl; lia].
Defined.

Lemma run_logic_forgets_display_witness :
  run_logic "SUCCESS" (run_logic "FAIL_PRE" SimulatorApp__init__)
  = run_logic "SUCCESS" SimulatorApp__init__.
Proof.
  apply (run_logic_forgets_display "SUCCESS"
           (run_logic "FAIL_PRE" SimulatorApp__init__) SimulatorApp__init__);
    reflexivity.
Defined.

Lemma nettoyer_bases_removes_only_its_files_witness :
  "notes.txt" ∈ nettoyer_bases locked_once 0 ["banque_replica_1.db"] demo_files.
Proof.
  apply (nettoyer_bases_removes_only_its_files locked_once
           ["banque_replica_1.db"] 0 demo_files).
  - intros db Hdb. apply list_elem_of_singleton in Hdb as ->.
    rewrite in_files_of. intros [H|[H|H]]; discriminate H.
  - unfold demo_files. rewrite !elem_of_union, !elem_of_singleton. auto.
Defined.


